(** * twitter-expand-influencers: a shallow embedding and its properties

    The development follows the three Python sources of the repository:

    - [expand_influencers.py]: seed-set reader, fetch wrappers, the two
      aggregation passes, scoring and the relevance filter;
    - [generate_powertrack_rules.py]: chunked PowerTrack rule payloads;
    - [influencers_to_csv.py]: the CSV exporter.

    Python values are modelled as follows.  A [str] is a [string] (code
    points below 256), an [int] is a [Z] (a [len] is a [nat]), a [float] is
    a primitive IEEE-754 binary64 [float], a [set] is a [gset], a [dict] is
    an insertion-ordered association list (iteration order matters for the
    stable sorts), and a computation that may raise is a [result]. *)

From Stdlib Require Import ZArith List String Ascii Lia Permutation Sorted.
From Stdlib Require Import DecimalString DecimalNat DecimalFacts.
From Stdlib Require Import Floats.
From stdpp Require Import gmap strings list.

Local Open Scope Z_scope.

(** ** Python prelude *)

Module Py.

(** The exceptions the modelled code can raise. *)
Inductive exn : Set :=
| IndexError
| KeyError
| ZeroDivisionError
| OverflowError.

Inductive result (A : Type) : Type :=
| Ok (a : A)
| Raise (e : exn).
Arguments Ok {A} a.
Arguments Raise {A} e.

#[export] Instance result_ret : MRet result := fun _ a => Ok a.
#[export] Instance result_bind : MBind result := fun _ _ f m =>
  match m with
  | Ok a => f a
  | Raise e => Raise e
  end.

(** *** Strings *)

(** [str.isspace] on code points below 256: TAB..CR, FS..US, SPACE,
    NEL (0x85) and NBSP (0xA0).  [strip()] and [split()] use the same
    predicate. *)
Definition isspace (c : ascii) : bool :=
  let n := N_of_ascii c in
  ((9 <=? n) && (n <=? 13) || (28 <=? n) && (n <=? 32)
   || (n =? 133) || (n =? 160))%N.

Definition newline : ascii := ascii_of_N 10.
Definition at_sign : ascii := ascii_of_N 64.

Fixpoint lstrip (s : string) : string :=
  match s with
  | EmptyString => EmptyString
  | String c s' => if isspace c then lstrip s' else s
  end.

Fixpoint rstrip (s : string) : string :=
  match s with
  | EmptyString => EmptyString
  | String c s' =>
      match rstrip s' with
      | EmptyString => if isspace c then EmptyString else String c EmptyString
      | r => String c r
      end
  end.

(** [s.strip()] *)
Definition strip (s : string) : string := rstrip (lstrip s).

(** [s.replace(c, "")] for a one-character [c]: every occurrence goes. *)
Fixpoint remove_char (c : ascii) (s : string) : string :=
  match s with
  | EmptyString => EmptyString
  | String d s' =>
      if Ascii.eqb d c then remove_char c s' else String d (remove_char c s')
  end.

(** [s.split(sep)] for a one-character separator: the pieces between the
    separators, empty pieces included; never the empty list.  [cur] is the
    piece being read. *)
Fixpoint split_char (sep : ascii) (cur : string) (s : string) : list string :=
  match s with
  | EmptyString => [cur]
  | String c s' =>
      if Ascii.eqb c sep then cur :: split_char sep EmptyString s'
      else split_char sep (cur +:+ String c EmptyString) s'
  end.

(** [s.split()] with no argument: the maximal runs of non-whitespace
    characters, in order; no empty token.  [tok] is the token being read. *)
Fixpoint split_ws (tok : string) (s : string) : list string :=
  match s with
  | EmptyString =>
      match tok with EmptyString => [] | _ => [tok] end
  | String c s' =>
      if isspace c then
        match tok with
        | EmptyString => split_ws EmptyString s'
        | _ => tok :: split_ws EmptyString s'
        end
      else split_ws (tok +:+ String c EmptyString) s'
  end.

(** [s.replace(old, new)] for a non-empty [old]: the occurrences of [old]
    are replaced from left to right, none overlapping the one before.
    [skip] counts the characters of a replaced occurrence still to pass. *)
Fixpoint replace_from (old new : string) (skip : nat) (s : string) : string :=
  match s with
  | EmptyString => EmptyString
  | String c s' =>
      match skip with
      | S k => replace_from old new k s'
      | O =>
          if String.prefix old s
          then new +:+ replace_from old new (String.length old - 1) s'
          else String c (replace_from old new 0 s')
      end
  end.

Definition replace (old new : string) (s : string) : string :=
  replace_from old new 0 s.

(** [sep.join(parts)] *)
Definition join (sep : string) (parts : list string) : string :=
  String.concat sep parts.

(** ["%d" % n] for a natural number. *)
Definition str_of_nat (n : nat) : string :=
  NilZero.string_of_uint (Nat.to_uint n).

(** *** Lists *)

(** [l[0]] *)
Definition head_item {A} (l : list A) : result A :=
  match l with
  | [] => Raise IndexError
  | x :: _ => Ok x
  end.

(** [l[-1]] *)
Definition last_item {A} (l : list A) : result A :=
  match last l with
  | None => Raise IndexError
  | Some x => Ok x
  end.

(** [l[i:j]] for [0 <= i] and [0 <= j]: out-of-range bounds are clipped. *)
Definition slice {A} (l : list A) (i j : nat) : list A :=
  drop i (take j l).

(** [range(start, stop, step)] for a positive [step].  The counter grows by
    [step >= 1] at each turn, so [stop] turns are enough. *)
Fixpoint range_from (fuel : nat) (i stop step : nat) : list nat :=
  match fuel with
  | O => []
  | S fuel' =>
      if (i <? stop)%nat then i :: range_from fuel' (i + step)%nat stop step
      else []
  end.

Definition range (start stop step : nat) : list nat :=
  range_from stop start stop step.

(** [l.sort(key=..., reverse=True)]: Python's sort is stable, also with
    [reverse=True] (items with equal keys keep their order).  It is
    modelled by a stable insertion sort: an item goes in front of the
    first item whose key is not greater.  [sort_desc_unique] below shows
    that every stable descending sort computes this list. *)
Section Sort.
Context {A : Type} (key : A -> Z).

Fixpoint insert_desc (x : A) (l : list A) : list A :=
  match l with
  | [] => [x]
  | y :: l' =>
      if key y <=? key x then x :: y :: l'
      else y :: insert_desc x l'
  end.

Definition sort_desc (l : list A) : list A :=
  foldr insert_desc [] l.
End Sort.

(** *** Floats *)

(** [float(z)] for a Python int: the nearest double, ties to even;
    [OverflowError] when that is not finite.  Below [2^63] the primitive
    conversion rounds; above, the top 63 bits with a sticky bit are
    converted and scaled. *)
Definition float_of_nonneg (a : Z) : float :=
  if a <? 2 ^ 63 then PrimFloat.of_uint63 (Uint63.of_Z a)
  else
    let k := Z.log2 a - 62 in
    let sticky := if a mod 2 ^ k =? 0 then 0 else 1 in
    Z.ldexp (PrimFloat.of_uint63 (Uint63.of_Z (Z.lor (Z.shiftr a k) sticky))) k.

Definition float_of_int (z : Z) : result float :=
  let f := float_of_nonneg (Z.abs z) in
  if PrimFloat.eqb f infinity then Raise OverflowError
  else Ok (if z <? 0 then PrimFloat.opp f else f).

(** [x / y] on floats: Python raises where IEEE-754 would give an
    infinity or a NaN for a zero divisor. *)
Definition float_div (x y : float) : result float :=
  if PrimFloat.eqb y 0%float then Raise ZeroDivisionError
  else Ok (PrimFloat.div x y).

End Py.

(** ** expand_influencers.py *)

Module ExpandInfluencers.
Import Py.

(** An Identity is Twitter's numeric user id; a Handle is a [string]. *)
Definition Identity : Type := Z.

Definition LISTENER_SET_SIZE : nat := 100.
Definition INFLUENCER_SET_SIZE : nat := 1000.
Definition MAX_FOLLOWERS : nat := 100000.
Definition MAX_FRIENDS : nat := 100000.
Definition NUM_TWITTER_USERS : float := 5e8%float.
(** The int [10]; Python compares a float with it as with the double 10.0. *)
Definition MIN_CIVIC_ODDS_RATIO : float := 10%float.

(** The fields of Twitter's user object that the repository reads. *)
Record User : Type := {
  screen_name : string;
  name : string;
  location : string;
  followers_count : Z;
  description : string
}.

(** A tweepy user object: the fetched fields and the two keys that
    [add_civic_stats] adds to its [_json] dictionary ([None]: key absent). *)
Record UserRecord : Type := {
  user : User;
  civic_listeners : option nat;
  civic_odds_ratio : option float
}.

(** The object as fetched: Twitter's user object has neither key. *)
Definition fetched (u : User) : UserRecord :=
  {| user := u; civic_listeners := None; civic_odds_ratio := None |}.

(** [record["civic_odds_ratio"]] *)
Definition get_civic_odds_ratio (r : UserRecord) : result float :=
  match civic_odds_ratio r with
  | Some x => Ok x
  | None => Raise KeyError
  end.

(** The three endpoints of the tweepy client.  [None] is a raised
    [TweepError]; for the two cursors the value is what iterating the
    cursor yields.  Each key is queried at most once in a run. *)
Record TweepyAPI : Type := {
  followers_ids : string -> option (list Identity);
  friends_ids : Identity -> option (list Identity);
  get_user : Identity -> option User
}.

(** [line.strip().replace("@", "").split()[0]] *)
Definition first_token (line : string) : result string :=
  head_item (split_ws EmptyString (remove_char at_sign (strip line))).

(** [if line]: a string is true unless it is empty. *)
Definition nonempty (line : string) : bool :=
  match line with EmptyString => false | _ => true end.

(** [read_seed_set], on the text that [open(fname).read()] returns.  The
    comprehension runs over the lines in order, so the first line without a
    token raises.  The order of [list(set(...))] is unspecified in Python;
    the model takes the order of [elements]. *)
Definition read_seed_set (contents : string) : result (list string) :=
  let lines := split_char newline EmptyString contents in
  tokens ← mapM first_token (List.filter nonempty lines);
  Ok (elements (list_to_set tokens : gset string)).

Definition handle_to_followers (api : TweepyAPI) (handle : string)
  : list Identity :=
  match followers_ids api handle with
  | Some items => take MAX_FOLLOWERS items
  | None => []
  end.

Definition id_to_followees (api : TweepyAPI) (twitter_id : Identity)
  : list Identity :=
  match friends_ids api twitter_id with
  | Some items => take MAX_FRIENDS items
  | None => []
  end.

Definition id_to_user_metadata (api : TweepyAPI) (twitter_id : Identity)
  : option UserRecord :=
  fetched <$> get_user api twitter_id.

(** [add_civic_stats] returns the record as it leaves it.  The key
    [civic_listeners] is set first; [if not num_followers: return] leaves
    the other key as it was.  [float(...)] is evaluated before the division
    converts its left operand; each [/] is a float division. *)
Definition add_civic_stats (user_record : UserRecord)
    (num_civic_listeners : nat) : result UserRecord :=
  let with_listeners ratio :=
    {| user := user user_record;
       civic_listeners := Some num_civic_listeners;
       civic_odds_ratio := ratio |} in
  let num_followers := followers_count (user user_record) in
  if num_followers =? 0 then Ok (with_listeners (civic_odds_ratio user_record))
  else
    denominator ← float_of_int
      (Z.of_nat INFLUENCER_SET_SIZE + 1 - Z.of_nat num_civic_listeners);
    listeners ← float_of_int (Z.of_nat num_civic_listeners);
    civic_odds ← float_div listeners denominator;
    followers ← float_of_int num_followers;
    general_odds ← float_div followers
      (PrimFloat.sub NUM_TWITTER_USERS followers);
    odds_ratio ← float_div civic_odds general_odds;
    Ok (with_listeners (Some odds_ratio)).

(** The two accumulation dictionaries, [id -> set], in insertion order.
    [note d k v] is
    [if k not in d: d[k] = set()] followed by [d[k].add(v)]. *)
Section Accumulate.
Context {V : Type} `{Countable V}.

Fixpoint note (d : list (Identity * gset V)) (k : Identity) (v : V)
  : list (Identity * gset V) :=
  match d with
  | [] => [(k, {[ v ]})]
  | (k', s) :: d' =>
      if decide (k' = k) then (k', {[ v ]} ∪ s) :: d'
      else (k', s) :: note d' k v
  end.

(** The nested loops of a pass: for every key, for every id related to
    it, note the key under the id. *)
Definition accumulate (related : V -> list Identity) (keys : list V)
  : list (Identity * gset V) :=
  foldl (fun d key => foldl (fun d' i => note d' i key) d (related key))
        [] keys.

(** [f_items.sort(key=lambda x: len(x[1]), reverse=True)] *)
Definition rank (f_items : list (Identity * gset V))
  : list (Identity * gset V) :=
  sort_desc (fun x => Z.of_nat (size x.2)) f_items.

(** The end of a pass: sort, log (the arguments of the log call read
    [f_items[0][1]]), cut at [cap] and count,
    [[(item[0], len(item[1])) for item in f_items[:cap]]]. *)
Definition top (cap : nat) (d : list (Identity * gset V))
  : result (list (Identity * nat)) :=
  let f_items := rank d in
  _ ← head_item f_items;
  Ok (map (fun item => (item.1, size item.2)) (take cap f_items)).
End Accumulate.

(** The metadata loop, with [output_records] as built so far.  A fetched
    user object is true ([if user_record:]); [None] is skipped.  The test
    reads [user_record._json["civic_odds_ratio"]], a [KeyError] when
    [add_civic_stats] has not set the key. *)
Fixpoint emit (api : TweepyAPI) (civic_influencers : list (Identity * nat))
    (output_records : list UserRecord) : result (list UserRecord) :=
  match civic_influencers with
  | [] => Ok output_records
  | (influencer_id, num_civic_listeners) :: rest =>
      match id_to_user_metadata api influencer_id with
      | None => emit api rest output_records
      | Some user_record =>
          annotated ← add_civic_stats user_record num_civic_listeners;
          ratio ← get_civic_odds_ratio annotated;
          if PrimFloat.leb MIN_CIVIC_ODDS_RATIO ratio
          then emit api rest (output_records ++ [annotated])
          else emit api rest output_records
      end
  end.

Definition pass1 (api : TweepyAPI) (seed_set : list string)
  : result (list (Identity * nat)) :=
  top LISTENER_SET_SIZE (accumulate (handle_to_followers api) seed_set).

Definition pass2 (api : TweepyAPI) (civic_listeners : list (Identity * nat))
  : result (list (Identity * nat)) :=
  top INFLUENCER_SET_SIZE
      (accumulate (id_to_followees api) (map fst civic_listeners)).

(** [get_expanded_users], on the text of the seed file. *)
Definition get_expanded_users (api : TweepyAPI) (seed_text : string)
  : result (list UserRecord) :=
  seed_set ← read_seed_set seed_text;
  civic_listeners ← pass1 api seed_set;
  civic_influencers ← pass2 api civic_listeners;
  emit api civic_influencers [].

End ExpandInfluencers.

(** ** generate_powertrack_rules.py *)

Module GeneratePowertrackRules.
Import Py.

Definition NUM_HANDLES_PER_RULE : nat := 30.

(** A PowerTrack rule, [{"value": rule, "tag": tag}]. *)
Record Rule : Type := { value : string; tag : string }.

(** A /rules payload, [{"rules": [...]}]. *)
Record Update : Type := { rules : list Rule }.

Definition make_rule (rule tag : string) : Rule :=
  {| value := rule; tag := tag |}.

(** [" OR ".join([prefix + s for s in handle_subset])] *)
Definition clause (prefix : string) (handle_subset : list string) : string :=
  join " OR " (map (fun s => prefix +:+ s) handle_subset).

(** ["<kind>_%s_%d" % (ruleset_name, i / NUM_HANDLES_PER_RULE)].  [i] is a
    multiple of [NUM_HANDLES_PER_RULE], so the quotient is a whole number:
    Python 3's true division gives it as a double (exactly, below 2^53) and
    [%d] prints it as that integer; Python 2 gives the integer itself. *)
Definition rule_tag (kind ruleset_name : string) (i : nat) : string :=
  kind +:+ "_" +:+ ruleset_name +:+ "_"
       +:+ str_of_nat (i / NUM_HANDLES_PER_RULE)%nat.

Definition rule_group (handles : list string) (ruleset_name : string)
    (i : nat) : Update :=
  let handle_subset :=
    slice handles i (Nat.min (length handles) (i + NUM_HANDLES_PER_RULE)) in
  {| rules :=
      [ make_rule (clause "from:" handle_subset)
                  (rule_tag "from" ruleset_name i);
        make_rule (clause "@" handle_subset)
                  (rule_tag "at" ruleset_name i);
        make_rule (clause "retweets_of:" handle_subset)
                  (rule_tag "retweets_of" ruleset_name i) ] |}.

Definition handles_to_rules (handles : list string) (ruleset_name : string)
  : list Update :=
  map (rule_group handles ruleset_name)
      (range 0 (length handles) NUM_HANDLES_PER_RULE).


End GeneratePowertrackRules.

(** ** influencers_to_csv.py *)

Module InfluencersToCsv.
Import Py ExpandInfluencers.

(** A CSV cell before formatting: a string, an int or a float. *)
Inductive Cell : Type :=
| CStr (s : string)
| CInt (z : Z)
| CFloat (f : float).

Definition header : list Cell :=
  [CStr "Screen name"; CStr "Display name"; CStr "Location";
   CStr "Followers"; CStr "Relevance"; CStr "Description"].

(** The reading loop over the parsed input lines, with [rows] as built so
    far: [(metric, x)] is appended for every record that passes both
    tests. *)
Fixpoint read_rows (input : list UserRecord) (rows : list (Z * UserRecord))
  : result (list (Z * UserRecord)) :=
  match input with
  | [] => Ok rows
  | x :: rest =>
      if followers_count (user x) <? 20 then read_rows rest rows
      else
        ratio ← get_civic_odds_ratio x;
        if PrimFloat.ltb ratio 200%float then read_rows rest rows
        else read_rows rest (rows ++ [(followers_count (user x), x)])
  end.

(** One data row; its record passed [read_rows], so the key is there. *)
Definition csv_row (r : Z * UserRecord) : result (list Cell) :=
  ratio ← get_civic_odds_ratio r.2;
  Ok [CStr (screen_name (user r.2)); CStr (name (user r.2));
      CStr (location (user r.2)); CInt (followers_count (user r.2));
      CFloat ratio; CStr (description (user r.2))].

(** The script: the rows handed to the CSV writer, header first. *)
Definition to_csv (input : list UserRecord) : result (list (list Cell)) :=
  rows ← read_rows input [];
  data ← mapM csv_row (take 500 (sort_desc fst rows));
  Ok (header :: data).

End InfluencersToCsv.

(** ** expand_influencers.py, the script body *)

Module Script.
Import Py ExpandInfluencers GeneratePowertrackRules.

Definition OUTPUT_PATH : string := ".".

Definition slash : ascii := ascii_of_N 47.
Definition dot : ascii := ascii_of_N 46.

(** [a.endswith("/")] *)
Fixpoint ends_with_slash (a : string) : bool :=
  match a with
  | EmptyString => false
  | String c EmptyString => Ascii.eqb c slash
  | String _ a' => ends_with_slash a'
  end.

(** [os.path.join(a, b)] on POSIX: an absolute [b] replaces [a]; a
    separator is put in unless [a] is empty or ends with one. *)
Definition path_join (a b : string) : string :=
  if String.prefix "/" b then b
  else if nonempty a && negb (ends_with_slash a) then a +:+ "/" +:+ b
  else a +:+ b.

(** [base_name = args.seedfile.replace(".txt", "")] *)
Definition base_name (seedfile : string) : string :=
  replace ".txt" EmptyString seedfile.

Definition expanded_set_fname (seedfile : string) : string :=
  path_join OUTPUT_PATH (base_name seedfile +:+ ".expanded_set.json").

Definition powertrack_rules_fname (seedfile : string) : string :=
  path_join OUTPUT_PATH (base_name seedfile +:+ ".powertrack_rules.json").

(** [ruleset_name = base_name.split("/")[-1].split(".")[0]] *)
Definition ruleset_name (seedfile : string) : result string :=
  component ← last_item (split_char slash EmptyString (base_name seedfile));
  head_item (split_char dot EmptyString component).


End Script.

(** ** Notions used in the statements *)

Module Spec.
Import Py ExpandInfluencers.

(** [desc key a b]: [a] may stand before [b] in a list that is sorted by
    [key], descending. *)
Definition desc {A : Type} (key : A -> Z) (a b : A) : Prop :=
  key b <= key a.

Fixpoint all_chars (P : ascii -> bool) (s : string) : bool :=
  match s with
  | EmptyString => true
  | String c s' => P c && all_chars P s'
  end.

Definition nonspace (c : ascii) : bool := negb (isspace c).
Definition space_or_at (c : ascii) : bool :=
  isspace c || Ascii.eqb c at_sign.

(** [is_not c d]: the character [d] is not [c]. *)
Definition is_not (c d : ascii) : bool := negb (Ascii.eqb d c).

(** [ends_token rest]: a token may end where [rest] begins. *)
Definition ends_token (rest : string) : Prop :=
  match rest with
  | EmptyString => True
  | String c _ => isspace c = true
  end.

(** [FirstToken h s]: [h] is the first whitespace-delimited token of [s]. *)
Definition FirstToken (h s : string) : Prop :=
  exists ws rest,
    s = ws +:+ h +:+ rest /\ all_chars isspace ws = true /\
    h <> EmptyString /\ all_chars nonspace h = true /\ ends_token rest.

(** The handle of a seed line in the words of the specification: the
    first whitespace-delimited token, with only a leading [@] stripped. *)
Definition strip_leading_at (token : string) : string :=
  match token with
  | String c rest => if Ascii.eqb c at_sign then rest else token
  | EmptyString => EmptyString
  end.

Definition handle_of_line (line : string) : option string :=
  strip_leading_at <$> head (split_ws EmptyString line).

(** The relevance score in the words of the specification, in Python's
    float arithmetic:
    [civic_odds = c / (INFLUENCER_SET_SIZE + 1 - c)],
    [general_odds = f / (NUM_TOTAL_USERS - f)] and
    [civic_odds_ratio = civic_odds / general_odds]. *)
Definition civic_odds (c : nat) : result float :=
  listeners ← float_of_int (Z.of_nat c);
  others ← float_of_int (Z.of_nat INFLUENCER_SET_SIZE + 1 - Z.of_nat c);
  float_div listeners others.

Definition general_odds (f : Z) : result float :=
  followers ← float_of_int f;
  float_div followers (PrimFloat.sub NUM_TWITTER_USERS followers).

Definition odds_ratio_formula (c : nat) (f : Z) : result float :=
  civic ← civic_odds c;
  general ← general_odds f;
  float_div civic general.

(** The exporter's two thresholds. *)
Definition exported (x : UserRecord) : bool :=
  (20 <=? followers_count (user x))
  && match civic_odds_ratio x with
     | Some ratio => PrimFloat.leb 200%float ratio
     | None => false
     end.

(** An influencer record as the expander writes it: [civic_odds_ratio] is
    there and is a number. *)
Definition scored (x : UserRecord) : Prop :=
  exists ratio, civic_odds_ratio x = Some ratio /\ is_nan ratio = false.

(** The client that answers the empty list wherever [api] fails on a
    relation fetch. *)
Definition without_relation_errors (api : TweepyAPI) : TweepyAPI :=
  {| followers_ids handle := Some (default [] (followers_ids api handle));
     friends_ids twitter_id := Some (default [] (friends_ids api twitter_id));
     get_user := get_user api |}.

(** [d.get(k)] on an accumulation dictionary. *)
Fixpoint entry {V : Type} `{Countable V} (d : list (Identity * gset V))
    (k : Identity) : option (gset V) :=
  match d with
  | [] => None
  | (k', s) :: d' => if decide (k' = k) then Some s else entry d' k
  end.

(** [Holds d E]: the dictionary [d] has one entry a key, no empty set, and
    holds [v] under [k] exactly when [E k v]. *)
Definition Holds {V : Type} `{Countable V} (d : list (Identity * gset V))
    (E : Identity -> V -> Prop) : Prop :=
  NoDup d.*1
  /\ (forall k s, entry d k = Some s -> s <> ∅)
  /\ (forall k v, (exists s, entry d k = Some s /\ v ∈ s) <-> E k v).

(** [ceil(n / m)] *)
Definition ceil_div (n m : nat) : nat := ((n + m - 1) / m)%nat.

(** The [j]-th chunk of [size] consecutive items. *)
Definition chunk {A : Type} (size : nat) (l : list A) (j : nat) : list A :=
  take size (drop (j * size) l).

End Spec.

(** ** A small network, used to run the model *)

Module Examples.
Import Py ExpandInfluencers.
Local Open Scope string_scope.

(** ["\n".join(lines)] *)
Definition unlines (lines : list string) : string :=
  join (String newline EmptyString) lines.

Definition account (handle : string) (followers : Z) : User :=
  {| screen_name := handle; name := handle; location := "Boston";
     followers_count := followers; description := "" |}.

(** Seeds [a] and [b]; followers 1..4; followees 10..12.  Listener 1
    cannot be fetched, nor can the metadata of candidate 12.  Candidate
    11 has [quiet] followers. *)
Definition network (quiet : Z) : TweepyAPI :=
  {| followers_ids h :=
       if String.eqb h "a" then Some [1; 2; 3]
       else if String.eqb h "b" then Some [2; 3; 4]
       else None;
     friends_ids i :=
       if (i =? 2)%Z then Some [10; 11]
       else if (i =? 3)%Z then Some [10; 12]
       else if (i =? 4)%Z then Some [11]
       else None;
     get_user i :=
       if (i =? 10)%Z then Some (account "ten" 100)
       else if (i =? 11)%Z then Some (account "eleven" quiet)
       else None |}.

(** Every candidate that can be fetched has followers. *)
Definition api : TweepyAPI := network 40.

(** Candidate 11 has no follower. *)
Definition api_zero : TweepyAPI := network 0.

(** Nobody can be fetched. *)
Definition api_down : TweepyAPI :=
  {| followers_ids _ := None; friends_ids _ := None; get_user _ := None |}.

(** Followers can be fetched, followees cannot. *)
Definition api_no_friends : TweepyAPI :=
  {| followers_ids := followers_ids api;
     friends_ids _ := None;
     get_user := get_user api |}.

Definition seed_lines : list string := ["@a"; "a"; " b "].
Definition seed_text : string := unlines seed_lines.

(** A seed file with a line that holds one space. *)
Definition seed_text_blank_line : string := unlines ["a"; " "; "b"].

(** Three followers with engagement counts 3, 3 and 1, in this order. *)
Definition X : Identity := 7.
Definition Y : Identity := 5.
Definition Z' : Identity := 9.
Definition engagement : list (Identity * gset string) :=
  [(X, {[ "a"; "b"; "c" ]}); (Y, {[ "b"; "c"; "d" ]}); (Z', {[ "a" ]})].

(** Input of the exporter: two records pass both thresholds, one has too
    few followers, one too small a ratio. *)
Definition scored_record (handle : string) (followers : Z) (ratio : float)
  : UserRecord :=
  {| user := account handle followers;
     civic_listeners := Some 2%nat;
     civic_odds_ratio := Some ratio |}.

Definition export_input : list UserRecord :=
  [ scored_record "small" 40 250%float;
    scored_record "few" 19 9000%float;
    scored_record "big" 100 10010%float;
    scored_record "offtopic" 5000 199.5%float ].

End Examples.

(** ** Facts about the prelude *)

Import Py ExpandInfluencers GeneratePowertrackRules InfluencersToCsv Spec.

Section SortFacts.
Context {A : Type} (key : A -> Z).
Implicit Types (x : A) (l : list A) (k : Z).

Local Abbreviation desc := (Spec.desc key).

Lemma insert_desc_perm x l : insert_desc key x l ≡ₚ x :: l.
Proof.
  induction l as [|y l IH]; simpl; [done|].
  destruct (key y <=? key x); [done|].
  rewrite IH. apply Permutation_swap.
Qed.

Lemma sort_desc_perm l : sort_desc key l ≡ₚ l.
Proof.
  induction l as [|x l IH]; simpl; [done|].
  rewrite insert_desc_perm. by rewrite IH.
Qed.

Lemma sort_desc_length l : length (sort_desc key l) = length l.
Proof. apply Permutation_length, sort_desc_perm. Qed.

Lemma insert_desc_sorted x l :
  StronglySorted desc l -> StronglySorted desc (insert_desc key x l).
Proof.
  induction 1 as [|y l Hs IH Hy]; simpl.
  - repeat constructor.
  - destruct (Z.leb_spec (key y) (key x)) as [Hle|Hlt].
    + constructor; [by constructor|].
      constructor; [done|].
      eapply Forall_impl; [exact Hy|]. unfold desc. intros; simpl in *; lia.
    + constructor; [done|].
      rewrite insert_desc_perm. constructor; [unfold desc; lia|done].
Qed.

Lemma sort_desc_sorted l : StronglySorted desc (sort_desc key l).
Proof.
  induction l; simpl; [constructor|by apply insert_desc_sorted].
Qed.

Lemma insert_desc_filter x l k :
  filter (fun y => key y = k) (insert_desc key x l)
  = filter (fun y => key y = k) (x :: l).
Proof.
  induction l as [|y l IH]; simpl; [done|].
  destruct (Z.leb_spec (key y) (key x)) as [Hle|Hlt]; [done|].
  rewrite filter_cons, IH, !filter_cons.
  repeat case_decide; try done; lia.
Qed.

Lemma sort_desc_stable l k :
  filter (fun y => key y = k) (sort_desc key l)
  = filter (fun y => key y = k) l.
Proof.
  induction l as [|x l IH]; simpl; [done|].
  by rewrite insert_desc_filter, !filter_cons, IH.
Qed.

Lemma sorted_stable_eq l1 l2 :
  StronglySorted desc l1 -> StronglySorted desc l2 ->
  (forall k, filter (fun y => key y = k) l1 = filter (fun y => key y = k) l2) ->
  l1 = l2.
Proof.
  intros Hs1. revert l2.
  induction Hs1 as [|x l1 Hs1 IH Hx]; intros l2 Hs2 Hf.
  - destruct l2 as [|y l2]; [done|].
    specialize (Hf (key y)). rewrite filter_cons_True in Hf by done. done.
  - destruct Hs2 as [|y l2 Hs2 Hy].
    { specialize (Hf (key x)). rewrite filter_cons_True in Hf by done. done. }
    assert (Hxy : key x = key y).
    { assert (x ∈ y :: l2) as Hin1.
      { eapply (list_elem_of_filter (fun z => key z = key x)).
        rewrite <- Hf, filter_cons_True by done. left. }
      assert (y ∈ x :: l1) as Hin2.
      { eapply (list_elem_of_filter (fun z => key z = key y)).
        rewrite Hf, filter_cons_True by done. left. }
      apply elem_of_cons in Hin1 as [->|Hin1]; [done|].
      apply elem_of_cons in Hin2 as [->|Hin2]; [done|].
      rewrite Forall_forall in Hx, Hy.
      apply Hx in Hin2. apply Hy in Hin1. unfold desc in *. lia. }
    pose proof (Hf (key x)) as Hk.
    rewrite filter_cons_True in Hk by done.
    rewrite (filter_cons_True (fun z => key z = key x) y) in Hk by done.
    injection Hk as -> Hk. f_equal.
    apply IH; [done|]. intros k.
    destruct (decide (key y = k)) as [<-|Hne]; [done|].
    specialize (Hf k). by rewrite !filter_cons_False in Hf.
Qed.

(** Any stable descending sort of [l] is [sort_desc key l]. *)
Lemma sort_desc_unique l l' :
  StronglySorted desc l' ->
  (forall k, filter (fun y => key y = k) l' = filter (fun y => key y = k) l) ->
  l' = sort_desc key l.
Proof.
  intros Hs Hf. apply sorted_stable_eq; [done|apply sort_desc_sorted|].
  intros k. by rewrite sort_desc_stable.
Qed.
End SortFacts.

Section StringFacts.
#[local] Arguments append !_ _ / : simpl nomatch.
Implicit Types (s tok h ws rest : string) (c : ascii).

Lemma append_snoc tok c h :
  (tok +:+ String c EmptyString) +:+ h = tok +:+ String c h.
Proof. induction tok; simpl; congruence. Qed.

Lemma append_empty_r s : s +:+ EmptyString = s.
Proof. induction s; simpl; congruence. Qed.

Lemma split_ws_token tok h rest :
  all_chars nonspace h = true ->
  split_ws tok (h +:+ rest) = split_ws (tok +:+ h) rest.
Proof.
  revert tok. induction h as [|c h IH]; intros tok Hh; simpl in *.
  - by rewrite append_empty_r.
  - apply andb_prop in Hh as [Hc Hh]. unfold nonspace in Hc.
    apply negb_true_iff in Hc. rewrite Hc, IH by done.
    by rewrite append_snoc.
Qed.

Lemma split_ws_skip ws s :
  all_chars isspace ws = true ->
  split_ws EmptyString (ws +:+ s) = split_ws EmptyString s.
Proof.
  induction ws as [|c ws IH]; intros Hws; simpl in *; [done|].
  apply andb_prop in Hws as [-> Hws]. auto.
Qed.

Lemma split_ws_flush tok rest :
  tok <> EmptyString -> ends_token rest ->
  exists tl, split_ws tok rest = tok :: tl.
Proof.
  intros Htok Hrest. destruct rest as [|c rest]; simpl in *.
  - destruct tok; [done|]. eauto.
  - rewrite Hrest. destruct tok; [done|]. eauto.
Qed.

Lemma split_ws_first h s :
  FirstToken h s -> head_item (split_ws EmptyString s) = Ok h.
Proof.
  intros (ws & rest & -> & Hws & Hne & Hh & Hrest).
  rewrite split_ws_skip, split_ws_token by done. simpl.
  destruct (split_ws_flush h rest Hne Hrest) as [tl ->]. done.
Qed.

Lemma split_ws_blank s :
  all_chars isspace s = true -> split_ws EmptyString s = [].
Proof.
  intros Hs. rewrite <- (append_empty_r s). by rewrite split_ws_skip.
Qed.

(** Every string starts with a (possibly empty) run of non-whitespace
    characters that ends at a whitespace character or at the end. *)
Lemma nonspace_run s :
  exists h rest, s = h +:+ rest /\ all_chars nonspace h = true /\ ends_token rest.
Proof.
  induction s as [|c s (h & rest & -> & Hh & Hrest)].
  - by exists EmptyString, EmptyString.
  - destruct (isspace c) eqn:Hc.
    + exists EmptyString, (String c (h +:+ rest)). by simpl.
    + exists (String c h), rest. simpl. unfold nonspace at 1. by rewrite Hc.
Qed.

Lemma first_token_total s :
  all_chars isspace s = true \/ exists h, FirstToken h s.
Proof.
  induction s as [|c s IH]; [by left|].
  destruct (isspace c) eqn:Hc.
  - destruct IH as [Hs|(h & ws & rest & -> & Hws & Hne & Hh & Hrest)].
    + left. simpl. by rewrite Hc.
    + right. exists h, (String c ws), rest. simpl. by rewrite Hc.
  - right. destruct (nonspace_run s) as (h & rest & -> & Hh & Hrest).
    exists (String c h), EmptyString, rest. simpl.
    unfold nonspace at 1. by rewrite Hc.
Qed.

Lemma isspace_at_sign : isspace at_sign = false.
Proof. reflexivity. Qed.

Lemma remove_char_space s :
  all_chars isspace s = true -> remove_char at_sign s = s.
Proof.
  induction s as [|c s IH]; simpl; [done|].
  intros [Hc Hs]%andb_prop.
  destruct (Ascii.eqb_spec c at_sign) as [->|_].
  - by rewrite isspace_at_sign in Hc.
  - by rewrite IH.
Qed.

Lemma rstrip_empty s :
  rstrip s = EmptyString -> all_chars isspace s = true.
Proof.
  induction s as [|c s IH]; simpl; [done|].
  destruct (rstrip s) eqn:Hr; [|done].
  destruct (isspace c); [auto|done].
Qed.

Lemma split_ws_lstrip s :
  split_ws EmptyString (remove_char at_sign (lstrip s))
  = split_ws EmptyString (remove_char at_sign s).
Proof.
  induction s as [|c s IH]; simpl; [done|].
  destruct (isspace c) eqn:Hc; [|done].
  destruct (Ascii.eqb_spec c at_sign) as [->|_].
  - by rewrite isspace_at_sign in Hc.
  - simpl. by rewrite Hc.
Qed.

Lemma split_ws_spaces tok s :
  all_chars isspace s = true ->
  split_ws tok s = match tok with EmptyString => [] | _ => [tok] end.
Proof.
  revert tok. induction s as [|c s IH]; intros tok Hs; simpl in *; [done|].
  apply andb_prop in Hs as [-> Hs].
  rewrite (IH EmptyString) by done. by destruct tok.
Qed.

Lemma split_ws_rstrip tok s :
  split_ws tok (remove_char at_sign (rstrip s))
  = split_ws tok (remove_char at_sign s).
Proof.
  revert tok. induction s as [|c s IH]; intros tok; simpl; [done|].
  destruct (rstrip s) as [|d r] eqn:Hr.
  - apply rstrip_empty in Hr.
    rewrite (remove_char_space s) by done.
    destruct (isspace c) eqn:Hc.
    + destruct (Ascii.eqb_spec c at_sign) as [->|_].
      { by rewrite isspace_at_sign in Hc. }
      simpl. rewrite Hc, (split_ws_spaces EmptyString s) by done.
      by destruct tok.
    + simpl. destruct (Ascii.eqb c at_sign).
      * simpl. by rewrite split_ws_spaces.
      * simpl. rewrite Hc. rewrite split_ws_spaces by done.
        by destruct tok.
  - simpl in IH |- *. destruct (Ascii.eqb c at_sign); [apply IH|].
    simpl. destruct (isspace c); [|apply IH].
    rewrite (IH EmptyString). by destruct tok.
Qed.

Lemma split_ws_strip s :
  split_ws EmptyString (remove_char at_sign (strip s))
  = split_ws EmptyString (remove_char at_sign s).
Proof. unfold strip. by rewrite split_ws_rstrip, split_ws_lstrip. Qed.

Lemma all_chars_remove s :
  all_chars isspace (remove_char at_sign s) = all_chars space_or_at s.
Proof.
  induction s as [|c s IH]; simpl; [done|]. unfold space_or_at at 1.
  destruct (Ascii.eqb_spec c at_sign) as [->|_]; simpl.
  - done.
  - by rewrite IH, orb_false_r.
Qed.
End StringFacts.

Lemma first_token_ok line h :
  first_token line = Ok h <-> FirstToken h (remove_char at_sign line).
Proof.
  unfold first_token. rewrite split_ws_strip. split.
  - intros Hh. destruct (first_token_total (remove_char at_sign line)) as [Hb|[h' Hh']].
    + by rewrite split_ws_blank in Hh.
    + pose proof (split_ws_first _ _ Hh') as Heq. congruence.
  - apply split_ws_first.
Qed.

Lemma first_token_raise line :
  first_token line = Raise IndexError <-> all_chars space_or_at line = true.
Proof.
  unfold first_token. rewrite split_ws_strip, <- all_chars_remove. split.
  - intros Hr. destruct (first_token_total (remove_char at_sign line)) as [Hb|[h' Hh']]; [done|].
    apply split_ws_first in Hh'. congruence.
  - intros Hb. by rewrite split_ws_blank.
Qed.

Section FloatFacts.
Lemma SFcompare_antisym x y :
  SFcompare y x = option_map CompOpp (SFcompare x y).
Proof.
  destruct x as [sx|sx| |sx mx ex], y as [sy|sy| |sy my ey]; simpl;
    try done; try (by destruct sx); try (by destruct sy);
    try (by destruct sx, sy).
  destruct sx, sy; try done; f_equal;
    rewrite (Z.compare_antisym ex ey);
    destruct (ex ?= ey)%Z; simpl; try done;
    rewrite <- (Pos.compare_cont_antisym _ _ Eq); simpl; try done.
Qed.

Lemma SFcompare_refl_nan x : SFeqb x x = true -> x <> S754_nan.
Proof. by intros H ->. Qed.

(** On numbers, [x < y] is the negation of [y <= x]. *)
Lemma float_ltb_not_leb (x y : float) :
  is_nan x = false -> is_nan y = false ->
  PrimFloat.ltb x y = negb (PrimFloat.leb y x).
Proof.
  unfold is_nan. intros Hx%negb_false_iff Hy%negb_false_iff.
  rewrite FloatAxioms.eqb_spec in Hx, Hy.
  apply SFcompare_refl_nan in Hx, Hy.
  rewrite FloatAxioms.ltb_spec, FloatAxioms.leb_spec.
  unfold SFltb, SFleb. rewrite (SFcompare_antisym (Prim2SF x) (Prim2SF y)).
  assert (SFcompare (Prim2SF x) (Prim2SF y) <> None) as Hc.
  { destruct (Prim2SF x), (Prim2SF y); simpl; done. }
  destruct (SFcompare (Prim2SF x) (Prim2SF y)) as [[]|]; done.
Qed.


End FloatFacts.

Section AccumulateFacts.
Context {V : Type} `{Countable V}.
Implicit Types (d : list (Identity * gset V)) (k : Identity) (v key : V).
Implicit Types (related : V -> list Identity).

Lemma note_nonempty d k v : note d k v <> [].
Proof. destruct d as [|[k' s] d]; simpl; [done|]. by case_decide. Qed.

Lemma foldl_note_nonempty d ids key :
  d <> [] \/ ids <> [] -> foldl (fun d' i => note d' i key) d ids <> [].
Proof.
  revert d. induction ids as [|i ids IH]; intros d [Hd|Hi]; simpl; try done.
  - apply IH. left. apply note_nonempty.
  - apply IH. left. apply note_nonempty.
Qed.

Lemma accumulate_from_nonempty related d keys :
  d <> [] ->
  foldl (fun d key => foldl (fun d' i => note d' i key) d (related key))
        d keys <> [].
Proof.
  revert d. induction keys as [|key keys IH]; intros d Hd; simpl; [done|].
  apply IH, foldl_note_nonempty. by left.
Qed.

(** No related id at all: the dictionary stays empty. *)
Lemma accumulate_nil related keys :
  (forall key, key ∈ keys -> related key = []) ->
  accumulate related keys = [].
Proof.
  unfold accumulate. induction keys as [|key keys IH]; intros Hk; simpl; [done|].
  rewrite (Hk key) by left. simpl. apply IH. intros k' Hk'. apply Hk. by right.
Qed.

Lemma accumulate_from_related related d keys key :
  key ∈ keys -> related key <> [] ->
  foldl (fun d key => foldl (fun d' i => note d' i key) d (related key))
        d keys <> [].
Proof.
  revert d. induction keys as [|k' keys IH]; intros d Hin Hne;
    [by apply elem_of_nil in Hin|].
  simpl. apply elem_of_cons in Hin as [<-|Hin].
  - apply accumulate_from_nonempty, foldl_note_nonempty. by right.
  - by apply IH.
Qed.

Lemma accumulate_nonempty related keys key :
  key ∈ keys -> related key <> [] -> accumulate related keys <> [].
Proof. apply accumulate_from_related. Qed.

(** A key with no related id leaves the pass as it is without the key. *)
Lemma accumulate_skip related keys1 key keys2 :
  related key = [] ->
  accumulate related (keys1 ++ key :: keys2)
  = accumulate related (keys1 ++ keys2).
Proof.
  intros Hk. unfold accumulate. rewrite !foldl_app. simpl. by rewrite Hk.
Qed.

Lemma rank_perm d : rank d ≡ₚ d.
Proof. apply sort_desc_perm. Qed.

Lemma rank_nonempty d : d <> [] -> rank d <> [].
Proof.
  intros Hd Hr. apply Hd. apply Permutation_nil. by rewrite <- Hr, rank_perm.
Qed.

Lemma top_nil cap : top cap (@nil (Identity * gset V)) = Raise IndexError.
Proof. reflexivity. Qed.

Lemma top_nonempty cap d :
  d <> [] ->
  top cap d = Ok (map (fun item => (item.1, size item.2)) (take cap (rank d))).
Proof.
  intros Hd%rank_nonempty. unfold top. by destruct (rank d).
Qed.

Lemma rank_sorted d :
  StronglySorted (fun a b => (size b.2 <= size a.2)%nat) (rank d).
Proof.
  unfold rank.
  induction (sort_desc_sorted (fun x : Identity * gset V => Z.of_nat (size x.2)) d)
    as [|a l Hs IH Ha]; constructor; [done|].
  eapply Forall_impl; [exact Ha|]. unfold desc. intros b. simpl. lia.
Qed.

Lemma rank_stable d (n : nat) :
  filter (fun x => size x.2 = n) (rank d) = filter (fun x => size x.2 = n) d.
Proof.
  pose proof (sort_desc_stable (fun x : Identity * gset V => Z.of_nat (size x.2))
                d (Z.of_nat n)) as Hs.
  unfold rank.
  erewrite (list_filter_iff _ (fun x => Z.of_nat (size x.2) = Z.of_nat n)) by (intros; lia).
  rewrite Hs. apply list_filter_iff. intros; lia.
Qed.
End AccumulateFacts.

Section ResultFacts.
Context {A B : Type}.

Lemma bind_ok (m : result A) (f : A -> result B) (b : B) :
  m ≫= f = Ok b -> exists a, m = Ok a /\ f a = Ok b.
Proof. destruct m as [a|e]; [eauto|done]. Qed.
End ResultFacts.

Section ScoringFacts.
Implicit Types (api : TweepyAPI) (u : UserRecord) (n : nat).

Lemma add_civic_stats_zero u n :
  followers_count (user u) = 0 ->
  add_civic_stats u n
  = Ok {| user := user u; civic_listeners := Some n;
          civic_odds_ratio := civic_odds_ratio u |}.
Proof. unfold add_civic_stats. by intros ->. Qed.

Lemma add_civic_stats_ok u n u' :
  add_civic_stats u n = Ok u' ->
  user u' = user u /\ civic_listeners u' = Some n.
Proof.
  unfold add_civic_stats. destruct (followers_count (user u) =? 0).
  - by intros [= <-].
  - intros Hb.
    repeat (apply bind_ok in Hb as (? & _ & Hb)).
    by injection Hb as <-.
Qed.

(** What the loop appends satisfies [P] whenever [P] holds of every
    annotated record whose ratio passes the test. *)
Lemma emit_invariant (P : UserRecord -> Prop) api cands out res :
  (forall r ratio, is_Some (civic_listeners r) ->
     civic_odds_ratio r = Some ratio ->
     PrimFloat.leb MIN_CIVIC_ODDS_RATIO ratio = true -> P r) ->
  Forall P out -> emit api cands out = Ok res -> Forall P res.
Proof.
  intros HP. revert out. induction cands as [|[id n] cands IH]; intros out Hout; simpl.
  - by intros [= <-].
  - destruct (id_to_user_metadata api id) as [u|]; [|by apply IH].
    intros (u' & Hu' & Hb)%bind_ok. apply bind_ok in Hb as (ratio & Hr & Hb).
    unfold get_civic_odds_ratio in Hr.
    destruct (civic_odds_ratio u') as [x|] eqn:Hx; [|done].
    injection Hr as ->.
    destruct (PrimFloat.leb MIN_CIVIC_ODDS_RATIO ratio) eqn:Hle; [|by eapply IH].
    eapply IH; [|done]. apply Forall_app. split; [done|].
    constructor; [|done]. eapply HP; [|done..].
    apply add_civic_stats_ok in Hu' as [_ ->]. by eexists.
Qed.

Lemma emit_app api before after out :
  emit api (before ++ after) out
  = emit api before out ≫= emit api after.
Proof.
  revert out. induction before as [|[id n] before IH]; intros out; simpl; [done|].
  destruct (id_to_user_metadata api id) as [u|]; [|done].
  destruct (add_civic_stats u n) as [u'|e]; simpl; [|done].
  destruct (get_civic_odds_ratio u') as [ratio|e]; simpl; [|done].
  by destruct (PrimFloat.leb MIN_CIVIC_ODDS_RATIO ratio).
Qed.

Lemma emit_skip api id n before after out :
  get_user api id = None ->
  emit api (before ++ (id, n) :: after) out = emit api (before ++ after) out.
Proof.
  intros Hid. rewrite !emit_app. destruct (emit api before out); simpl; [|done].
  unfold id_to_user_metadata. by rewrite Hid.
Qed.

Lemma emit_zero_followers api id n rest out (account : User) :
  get_user api id = Some account -> followers_count account = 0 ->
  emit api ((id, n) :: rest) out = Raise KeyError.
Proof.
  intros Hid Hz. simpl. unfold id_to_user_metadata. rewrite Hid. simpl.
  by rewrite add_civic_stats_zero.
Qed.
End ScoringFacts.

Section MapMFacts.
Context {A B : Type} (f : A -> result B).

Lemma mapM_ok (l : list A) :
  (forall x, x ∈ l -> exists y, f x = Ok y) ->
  exists ys, mapM f l = Ok ys /\ Forall2 (fun x y => f x = Ok y) l ys.
Proof.
  induction l as [|x l IH]; intros Hl; simpl.
  - exists []. by split.
  - destruct (Hl x) as [y Hy]; [left|].
    destruct IH as (ys & Hys & HF); [intros; apply Hl; by right|].
    exists (y :: ys). rewrite Hy. simpl. rewrite Hys. simpl.
    split; [done|]. by constructor.
Qed.

Lemma mapM_raise (l : list A) (e : exn) (x : A) :
  x ∈ l -> f x = Raise e ->
  (forall x' e', x' ∈ l -> f x' = Raise e' -> e' = e) ->
  mapM f l = Raise e.
Proof.
  induction l as [|x' l IH]; intros Hin Hx Hall; [by apply elem_of_nil in Hin|].
  simpl. destruct (f x') as [y|e'] eqn:Hx'; simpl.
  - apply elem_of_cons in Hin as [->|Hin]; [congruence|].
    rewrite IH; [done..|]. intros. eapply Hall; [by right|done].
  - f_equal. eapply Hall; [left|done].
Qed.
End MapMFacts.

Section Forall2Facts.
Context {A B : Type} (R : A -> B -> Prop).

Lemma Forall2_elem_l l ys x :
  Forall2 R l ys -> x ∈ l -> exists y, y ∈ ys /\ R x y.
Proof.
  induction 1 as [|x' y l ys HR HF IH]; intros Hin; [by apply elem_of_nil in Hin|].
  apply elem_of_cons in Hin as [->|Hin].
  - exists y. split; [left|done].
  - destruct (IH Hin) as (y' & Hy' & HR'). exists y'. split; [by right|done].
Qed.

Lemma Forall2_elem_r l ys y :
  Forall2 R l ys -> y ∈ ys -> exists x, x ∈ l /\ R x y.
Proof.
  induction 1 as [|x y' l ys HR HF IH]; intros Hin; [by apply elem_of_nil in Hin|].
  apply elem_of_cons in Hin as [->|Hin].
  - exists x. split; [left|done].
  - destruct (IH Hin) as (x' & Hx' & HR'). exists x'. split; [by right|done].
Qed.
End Forall2Facts.

Section SeedFacts.
Implicit Types (contents line h : string).

Lemma nonempty_true line : nonempty line = true <-> line <> EmptyString.
Proof. by destruct line. Qed.

Lemma first_token_exn line e : first_token line = Raise e -> e = IndexError.
Proof.
  unfold first_token, head_item.
  by destruct (split_ws _ _); intros [= <-].
Qed.

Lemma elem_of_seed_lines contents line :
  line ∈ List.filter nonempty (split_char newline EmptyString contents)
  <-> line ∈ split_char newline EmptyString contents /\ line <> EmptyString.
Proof.
  rewrite !list_elem_of_In, filter_In, nonempty_true. done.
Qed.

(** The seed set is read when every non-empty line holds a character
    that is neither whitespace nor [@]; it then holds the first token of
    each such line, taken after every [@] is removed. *)
Lemma read_seed_set_ok contents :
  (forall line, line ∈ split_char newline EmptyString contents ->
     line <> EmptyString -> all_chars space_or_at line = false) ->
  exists seed_set,
    read_seed_set contents = Ok seed_set /\ NoDup seed_set
    /\ forall h, h ∈ seed_set <->
         exists line, line ∈ split_char newline EmptyString contents
                      /\ line <> EmptyString
                      /\ FirstToken h (remove_char at_sign line).
Proof.
  intros Hlines. unfold read_seed_set.
  destruct (mapM_ok first_token
              (List.filter nonempty (split_char newline EmptyString contents)))
    as (tokens & -> & HF).
  { intros line [Hin Hne]%elem_of_seed_lines.
    destruct (first_token line) as [h|e] eqn:Hl; [eauto|].
    pose proof (first_token_exn _ _ Hl) as ->.
    apply first_token_raise in Hl. by rewrite Hlines in Hl. }
  simpl. eexists. split; [done|]. split; [apply NoDup_elements|].
  intros h. rewrite elem_of_elements, elem_of_list_to_set. split.
  - intros Hh. eapply Forall2_elem_r in HF as (line & Hin & Hl); [|done].
    apply elem_of_seed_lines in Hin as [Hin Hne].
    exists line. by rewrite <- first_token_ok.
  - intros (line & Hin & Hne & Hl). apply first_token_ok in Hl.
    eapply Forall2_elem_l in HF as (h' & Hin' & Hl');
      [|by apply elem_of_seed_lines].
    congruence.
Qed.

(** The reader raises [IndexError] exactly when some non-empty line holds
    nothing but whitespace and [@]. *)
Lemma read_seed_set_raise contents :
  (exists line, line ∈ split_char newline EmptyString contents
                /\ line <> EmptyString /\ all_chars space_or_at line = true)
  <-> read_seed_set contents = Raise IndexError.
Proof.
  split.
  - intros (line & Hin & Hne & Hb). unfold read_seed_set.
    rewrite (mapM_raise first_token _ IndexError line); [done|..].
    + by apply elem_of_seed_lines.
    + by apply first_token_raise.
    + eauto using first_token_exn.
  - intros Hr.
    destruct (decide (Exists (fun line => line <> EmptyString
                               /\ all_chars space_or_at line = true)
                        (split_char newline EmptyString contents))) as [He|Hn].
    + apply Exists_exists in He as (line & Hin & Hne & Hb).
      by exists line.
    + destruct (read_seed_set_ok contents) as (seed_set & Hok & _); [|congruence].
      intros line Hin Hne. apply not_true_is_false. intros Hb.
      apply Hn, Exists_exists. by exists line.
Qed.
End SeedFacts.

Section LineFacts.
#[local] Arguments append !_ _ / : simpl nomatch.
Implicit Types (s cur : string) (sep : ascii).

Lemma split_char_nonempty sep cur s : split_char sep cur s <> [].
Proof.
  revert cur. induction s as [|c s IH]; intros cur; simpl; [done|].
  destruct (Ascii.eqb c sep); [done|apply IH].
Qed.

Lemma concat_cons (glue piece : string) (pieces : list string) :
  pieces <> [] ->
  String.concat glue (piece :: pieces)
  = piece +:+ glue +:+ String.concat glue pieces.
Proof. by destruct pieces. Qed.

(** The pieces, joined by the separator, give the text back. *)
Lemma split_char_join sep cur s :
  join (String sep EmptyString) (split_char sep cur s) = cur +:+ s.
Proof.
  unfold join. revert cur. induction s as [|c s IH]; intros cur; simpl.
  - by rewrite append_empty_r.
  - destruct (Ascii.eqb_spec c sep) as [->|_].
    + rewrite concat_cons by apply split_char_nonempty.
      rewrite IH. by simpl.
    + by rewrite IH, append_snoc.
Qed.

(** No piece holds the separator. *)
Lemma split_char_pieces sep cur s :
  all_chars (fun c => negb (Ascii.eqb c sep)) cur = true ->
  Forall (fun piece => all_chars (fun c => negb (Ascii.eqb c sep)) piece = true)
         (split_char sep cur s).
Proof.
  revert cur. induction s as [|c s IH]; intros cur Hcur; simpl.
  - by constructor.
  - destruct (Ascii.eqb c sep) eqn:Hc.
    + constructor; [done|]. by apply IH.
    + apply IH. clear IH. induction cur as [|d cur IHc]; simpl in *.
      * by rewrite Hc.
      * apply andb_prop in Hcur as [-> Hcur]. simpl. auto.
Qed.
End LineFacts.

Section ChunkFacts.
Local Open Scope nat_scope.
Context (m : nat) (Hm : 0 < m).

Lemma ceil_div_0 : ceil_div 0 m = 0.
Proof. unfold ceil_div. apply Nat.div_small. lia. Qed.

Lemma ceil_div_step n : 0 < n -> ceil_div n m = S (ceil_div (n - m) m).
Proof.
  intros Hn. unfold ceil_div. destruct (Nat.le_gt_cases m n) as [Hle|Hlt].
  - replace (n + m - 1) with ((n - m + m - 1) + 1 * m) by lia.
    rewrite Nat.div_add by lia. lia.
  - replace (n - m) with 0 by lia.
    replace (n + m - 1) with ((n - 1) + 1 * m) by lia.
    rewrite Nat.div_add by lia.
    rewrite (Nat.div_small (n - 1)), (Nat.div_small (0 + m - 1)) by lia. lia.
Qed.

Lemma ceil_div_pos n : ceil_div n m = 0 -> n = 0.
Proof.
  intros Hc. destruct n as [|n]; [done|].
  rewrite ceil_div_step in Hc by lia. done.
Qed.

Lemma ceil_div_gt n j : j < ceil_div n m <-> j * m < n.
Proof.
  revert n. induction j as [|j IH]; intros n.
  - destruct n as [|n]; [rewrite ceil_div_0; lia|].
    rewrite ceil_div_step by lia. lia.
  - destruct n as [|n]; [rewrite ceil_div_0; lia|].
    rewrite ceil_div_step by lia. rewrite <- Nat.succ_lt_mono, IH. simpl. lia.
Qed.

(** [range] counts up in steps of [m]: the multiples of [m] below [stop]. *)
Lemma range_from_multiples fuel i stop :
  stop <= i + fuel * m ->
  range_from fuel i stop m
  = map (fun j => i + j * m) (seq 0 (ceil_div (stop - i) m)).
Proof.
  revert i. induction fuel as [|fuel IH]; intros i Hfuel; simpl.
  - replace (stop - i) with 0 by lia. by rewrite ceil_div_0.
  - destruct (Nat.ltb_spec i stop) as [Hlt|Hge].
    + rewrite ceil_div_step by lia. simpl. f_equal; [lia|].
      rewrite IH by lia. rewrite <- seq_shift, map_map.
      replace (stop - i - m) with (stop - (i + m)) by lia.
      apply map_ext. intros j. simpl. lia.
    + replace (stop - i) with 0 by lia. by rewrite ceil_div_0.
Qed.

Lemma range_multiples stop :
  range 0 stop m = map (fun j => j * m) (seq 0 (ceil_div stop m)).
Proof.
  unfold range. rewrite range_from_multiples by nia.
  by rewrite Nat.sub_0_r.
Qed.

Context {A : Type}.
Implicit Types (l : list A).

Lemma slice_chunk l j :
  slice l (j * m) (Nat.min (length l) (j * m + m)) = chunk m l j.
Proof.
  unfold slice, chunk. rewrite take_drop_commute. f_equal.
  destruct (Nat.min_spec (length l) (j * m + m)) as [[Hlt ->]|[_ ->]]; [|done].
  by rewrite !take_ge by lia.
Qed.

Lemma chunk_length l j :
  length (chunk m l j) = Nat.min m (length l - j * m).
Proof. unfold chunk. by rewrite length_take, length_drop. Qed.

Lemma chunk_shift l j : chunk m l (S j) = chunk m (drop m l) j.
Proof.
  unfold chunk. by rewrite drop_drop.
Qed.

(** The chunks, in order, make up the list. *)
Lemma chunks_concat l :
  concat (map (chunk m l) (seq 0 (ceil_div (length l) m))) = l.
Proof.
  remember (ceil_div (length l) m) as k eqn:Hk. revert l Hk.
  induction k as [|k IH]; intros l Hk.
  - symmetry in Hk. apply ceil_div_pos in Hk. by destruct l.
  - assert (0 < length l) as Hl.
    { destruct l; [|simpl; lia]. simpl in Hk. by rewrite ceil_div_0 in Hk. }
    rewrite ceil_div_step in Hk by done. injection Hk as Hk.
    simpl. rewrite <- seq_shift, map_map.
    rewrite (map_ext _ (chunk m (drop m l))) by (intros; apply chunk_shift).
    rewrite IH by (by rewrite length_drop).
    unfold chunk. simpl. rewrite drop_0. apply take_drop.
Qed.
End ChunkFacts.

Section RuleFacts.
Local Open Scope nat_scope.
Implicit Types (handles : list string) (ruleset_name : string).

Lemma NUM_HANDLES_PER_RULE_pos : 0 < NUM_HANDLES_PER_RULE.
Proof. unfold NUM_HANDLES_PER_RULE. lia. Qed.

(** The payload of chunk [j], by its index. *)
Lemma rule_group_chunk handles ruleset_name j :
  rule_group handles ruleset_name (j * NUM_HANDLES_PER_RULE)
  = {| rules :=
        [ {| value := join " OR " (map (fun s => "from:" +:+ s)
                                     (chunk NUM_HANDLES_PER_RULE handles j));
             tag := "from_" +:+ ruleset_name +:+ "_" +:+ str_of_nat j |};
          {| value := join " OR " (map (fun s => "@" +:+ s)
                                     (chunk NUM_HANDLES_PER_RULE handles j));
             tag := "at_" +:+ ruleset_name +:+ "_" +:+ str_of_nat j |};
          {| value := join " OR " (map (fun s => "retweets_of:" +:+ s)
                                     (chunk NUM_HANDLES_PER_RULE handles j));
             tag := "retweets_of_" +:+ ruleset_name +:+ "_" +:+ str_of_nat j |}
        ] |}.
Proof.
  unfold rule_group, rule_tag, clause, make_rule.
  rewrite (slice_chunk _ NUM_HANDLES_PER_RULE_pos).
  by rewrite Nat.div_mul.
Qed.
End RuleFacts.

Section SortMapFacts.
Context {A B : Type} (key : B -> Z) (f : A -> B).

Lemma insert_desc_map x l :
  insert_desc key (f x) (map f l)
  = map f (insert_desc (fun a => key (f a)) x l).
Proof.
  induction l as [|y l IH]; simpl; [done|].
  destruct (key (f y) <=? key (f x)); simpl; [done|]. by rewrite IH.
Qed.

(** Sorting pairs [(key, item)] by their key sorts the items. *)
Lemma sort_desc_map l :
  sort_desc key (map f l) = map f (sort_desc (fun a => key (f a)) l).
Proof.
  induction l as [|x l IH]; simpl; [done|].
  by rewrite IH, insert_desc_map.
Qed.
End SortMapFacts.

Section ExportFacts.
Implicit Types (x : UserRecord) (input : list UserRecord).

Lemma exported_spec x :
  exported x = true <->
  20 <= followers_count (user x)
  /\ exists ratio, civic_odds_ratio x = Some ratio
                   /\ PrimFloat.leb 200%float ratio = true.
Proof.
  unfold exported. rewrite andb_true_iff, Z.leb_le.
  destruct (civic_odds_ratio x) as [r|]; split.
  - intros [? ?]; eauto.
  - intros [? (r' & [= ->] & ?)]; eauto.
  - intros [_ [=]].
  - intros [_ (? & [=] & _)].
Qed.

(** On scored records the reading loop keeps the exported ones, in
    order. *)
Lemma read_rows_filter input rows :
  Forall scored input ->
  read_rows input rows
  = Ok (rows ++ map (fun x => (followers_count (user x), x))
                    (List.filter exported input)).
Proof.
  intros Hs. revert rows.
  induction Hs as [|x input (ratio & Hr & Hnan) _ IH]; intros rows; simpl.
  - by rewrite app_nil_r.
  - unfold exported, get_civic_odds_ratio. rewrite Hr.
    rewrite (Z.leb_antisym (followers_count (user x)) 20).
    destruct (followers_count (user x) <? 20); simpl; [apply IH|].
    rewrite (float_ltb_not_leb ratio 200) by done.
    destruct (PrimFloat.leb 200 ratio); simpl; [|apply IH].
    by rewrite IH, <- app_assoc.
Qed.

Lemma csv_row_ok (r : Z * UserRecord) row :
  csv_row r = Ok row ->
  exists ratio,
    civic_odds_ratio r.2 = Some ratio
    /\ row = [CStr (screen_name (user r.2)); CStr (name (user r.2));
              CStr (location (user r.2)); CInt (followers_count (user r.2));
              CFloat ratio; CStr (description (user r.2))].
Proof.
  unfold csv_row, get_civic_odds_ratio.
  destruct (civic_odds_ratio r.2) as [ratio|]; simpl; [|done].
  intros [= <-]. eauto.
Qed.
End ExportFacts.

Section FetchFacts.
Implicit Types (api : TweepyAPI).

Lemma accumulate_ext {V : Type} `{Countable V}
    (related related' : V -> list Identity) (keys : list V) :
  (forall key, related key = related' key) ->
  accumulate related keys = accumulate related' keys.
Proof.
  intros Hext. unfold accumulate. generalize (@nil (Identity * gset V)).
  induction keys as [|key keys IH]; intros d; simpl; [done|].
  by rewrite Hext, IH.
Qed.

Lemma handle_to_followers_without_errors api handle :
  handle_to_followers (without_relation_errors api) handle
  = handle_to_followers api handle.
Proof.
  unfold handle_to_followers. simpl. by destruct (followers_ids api handle).
Qed.

Lemma id_to_followees_without_errors api twitter_id :
  id_to_followees (without_relation_errors api) twitter_id
  = id_to_followees api twitter_id.
Proof.
  unfold id_to_followees. simpl. by destruct (friends_ids api twitter_id).
Qed.

Lemma emit_without_errors api civic_influencers output_records :
  emit (without_relation_errors api) civic_influencers output_records
  = emit api civic_influencers output_records.
Proof.
  revert output_records.
  induction civic_influencers as [|[id n] rest IH]; intros out; simpl; [done|].
  unfold id_to_user_metadata. simpl.
  destruct (get_user api id) as [u|]; simpl; [|apply IH].
  destruct (add_civic_stats (fetched u) n) as [u'|]; simpl; [|done].
  destruct (get_civic_odds_ratio u') as [ratio|]; simpl; [|done].
  destruct (PrimFloat.leb MIN_CIVIC_ODDS_RATIO ratio); apply IH.
Qed.

(** A run cannot tell a failed relation fetch from an empty answer. *)
Lemma get_expanded_users_without_errors api seed_text :
  get_expanded_users (without_relation_errors api) seed_text
  = get_expanded_users api seed_text.
Proof.
  unfold get_expanded_users, pass1, pass2.
  destruct (read_seed_set seed_text) as [seed_set|]; simpl; [|done].
  rewrite (accumulate_ext _ (handle_to_followers api))
    by apply handle_to_followers_without_errors.
  destruct (top LISTENER_SET_SIZE _) as [listeners|]; simpl; [|done].
  rewrite (accumulate_ext _ (id_to_followees api))
    by apply id_to_followees_without_errors.
  destruct (top INFLUENCER_SET_SIZE _) as [influencers|]; simpl; [|done].
  apply emit_without_errors.
Qed.
End FetchFacts.


(** ** The claims *)

(** C1, at the failing input: candidate 11 of [Examples.api_zero] is fetched
    with [followers_count = 0]; [add_civic_stats] returns before it sets
    [civic_odds_ratio], the caller reads the key, and the run ends with
    [KeyError] instead of skipping the record. *)
Theorem zero_followers_run_raises :
  add_civic_stats (fetched (Examples.account "eleven" 0)) 2
  = Ok {| user := Examples.account "eleven" 0;
          civic_listeners := Some 2%nat; civic_odds_ratio := None |}
  /\ get_expanded_users Examples.api_zero Examples.seed_text = Raise KeyError.
Proof. split; vm_compute; reflexivity. Qed.

(** C2, counterexample: on the empty map Pass 1 keeps no list at all; the
    log line reads the first ranked item and raises [IndexError]. *)
Lemma pass1_ranking_empty_map :
  top LISTENER_SET_SIZE (@nil (Identity * gset string)) = Raise IndexError
  /\ forall kept, top LISTENER_SET_SIZE (@nil (Identity * gset string)) <> Ok kept.
Proof. split; [reflexivity|done]. Qed.

(** C2, amended: for every non-empty map [d] from follower Identity to its
    set of seed handles, Pass 1 ranks the entries by set cardinality,
    descending, with a stable sort (entries of equal cardinality keep their
    order in [d]), and keeps the first [min LISTENER_SET_SIZE (length d)]
    entries, each with its cardinality.  With counts [3,3,1] for [X,Y,Z], X
    stays before Y, also when the cap cuts Z off. *)
Theorem pass1_ranking (d : list (Identity * gset string)) :
  d <> [] ->
  exists ranked,
    ranked ≡ₚ d
    /\ StronglySorted (fun a b => (size b.2 <= size a.2)%nat) ranked
    /\ (forall n : nat,
          filter (fun x => size x.2 = n) ranked = filter (fun x => size x.2 = n) d)
    /\ (forall cap,
          top cap d
          = Ok (map (fun x => (x.1, size x.2))
                    (take (Nat.min cap (length d)) ranked)))
    /\ (forall api seed_set,
          accumulate (handle_to_followers api) seed_set = d ->
          exists listeners,
            pass1 api seed_set = Ok listeners
            /\ listeners = map (fun x => (x.1, size x.2))
                               (take (Nat.min LISTENER_SET_SIZE (length d)) ranked)
            /\ length listeners = Nat.min LISTENER_SET_SIZE (length d))
    /\ top LISTENER_SET_SIZE Examples.engagement
       = Ok [(Examples.X, 3%nat); (Examples.Y, 3%nat); (Examples.Z', 1%nat)]
    /\ top 2 Examples.engagement = Ok [(Examples.X, 3%nat); (Examples.Y, 3%nat)].
Proof.
  intros Hd. exists (rank d).
  assert (Htop : forall cap,
    top cap d = Ok (map (fun x => (x.1, size x.2))
                        (take (Nat.min cap (length d)) (rank d)))).
  { intros cap. rewrite top_nonempty by done. do 2 f_equal.
    destruct (Nat.min_spec cap (length d)) as [[_ ->]|[Hle ->]]; [done|].
    rewrite !take_ge; [done|..]; rewrite ?sort_desc_length; unfold rank;
      rewrite ?sort_desc_length; lia. }
  split; [apply rank_perm|]. split; [apply rank_sorted|].
  split; [apply rank_stable|]. split; [exact Htop|]. split.
  - intros api seed_set <-. eexists. split; [apply Htop|]. split; [done|].
    rewrite length_map, length_take. unfold rank. rewrite sort_desc_length. lia.
  - split; vm_compute; reflexivity.
Qed.

(** [pass1_ranking] on the map of the three followers X, Y and Z. *)
Lemma pass1_ranking_witness :
  exists ranked,
    ranked ≡ₚ Examples.engagement
    /\ top 2 Examples.engagement
       = Ok (map (fun x => (x.1, size x.2)) (take 2 ranked)).
Proof.
  destruct (pass1_ranking Examples.engagement) as (ranked & Hp & _ & _ & Ht & _).
  - vm_compute. discriminate.
  - exists ranked. split; [exact Hp|]. exact (Ht 2%nat).
Defined.

(** C3: for a record with a non-zero [followers_count], [add_civic_stats]
    sets [civic_odds_ratio] to the value of
    [(c / (INFLUENCER_SET_SIZE + 1 - c)) / (f / (NUM_TWITTER_USERS - f))],
    evaluated in Python's float arithmetic (and raises what that expression
    raises); for [c = 10] and [f = 100] this is the double
    [(10 / 991) / (100 / (5e8 - 100))]. *)
Theorem add_civic_stats_formula (user_record : UserRecord) (c : nat) :
  followers_count (user user_record) <> 0 ->
  add_civic_stats user_record c
  = (ratio ← odds_ratio_formula c (followers_count (user user_record));
     Ok {| user := user user_record; civic_listeners := Some c;
           civic_odds_ratio := Some ratio |})
  /\ odds_ratio_formula 10 100
     = Ok (PrimFloat.div (PrimFloat.div 10 991)
             (PrimFloat.div 100 (PrimFloat.sub 5e8 100)))
  /\ odds_ratio_formula 10 100 = Ok 0x1.8a2c2743f0803p+15%float.
Proof.
  intros Hf. split; [|split; vm_compute; reflexivity].
  unfold add_civic_stats, odds_ratio_formula, civic_odds, general_odds.
  destruct (Z.eqb_spec (followers_count (user user_record)) 0) as [|_]; [done|].
  destruct (float_of_int (Z.of_nat INFLUENCER_SET_SIZE + 1 - Z.of_nat c))
    as [rest|e1] eqn:H1;
    destruct (float_of_int (Z.of_nat c)) as [listeners|e2] eqn:H2; simpl;
    try done.
  - destruct (float_div listeners rest); simpl; [|done].
    destruct (float_of_int (followers_count (user user_record))); simpl; [|done].
    destruct (float_div _ (PrimFloat.sub _ _)); simpl; [|done].
    by destruct (float_div _ _).
  - unfold float_of_int in H1, H2.
    destruct (PrimFloat.eqb _ infinity) in H1; [|done].
    destruct (PrimFloat.eqb _ infinity) in H2; [|done].
    congruence.
Qed.

(** [add_civic_stats_formula] on a record with 100 followers and 10
    listeners. *)
Lemma add_civic_stats_formula_witness :
  add_civic_stats (fetched (Examples.account "ten" 100)) 10
  = Ok {| user := Examples.account "ten" 100; civic_listeners := Some 10%nat;
          civic_odds_ratio := Some 0x1.8a2c2743f0803p+15%float |}.
Proof.
  destruct (add_civic_stats_formula (fetched (Examples.account "ten" 100)) 10)
    as (Hcode & _ & Hvalue).
  - simpl. lia.
  - rewrite Hcode. vm_compute. reflexivity.
Defined.

(** The double of the example is not the rational value of the expression,
    49999990/991, nor the double nearest to it: it lies 925/991 of a unit in
    the last place above. *)
Remark odds_ratio_example_rounding :
  exists ratio,
    odds_ratio_formula 10 100 = Ok ratio
    /\ Prim2SF ratio = S754_finite false 6934355498698755 (-37)
    /\ 6934355498698755 * 991 - 49999990 * 2 ^ 37 = 925.
Proof. eexists. repeat split; vm_compute; reflexivity. Qed.

(** Where the expression is defined: the civic odds of up to
    [INFLUENCER_SET_SIZE] listeners are, and the next count divides by zero;
    the general odds divide by zero at [NUM_TWITTER_USERS] followers; and
    with no follower the general odds are zero, the division that
    [add_civic_stats] guards. *)
Remark odds_ratio_formula_domain :
  (forall c, (c <= INFLUENCER_SET_SIZE)%nat -> exists x, civic_odds c = Ok x)
  /\ civic_odds (S INFLUENCER_SET_SIZE) = Raise ZeroDivisionError
  /\ general_odds 500000000 = Raise ZeroDivisionError
  /\ general_odds 0 = Ok 0%float
  /\ odds_ratio_formula 10 0 = Raise ZeroDivisionError.
Proof.
  split; [|repeat split; vm_compute; reflexivity].
  assert (Hall : forallb (fun c => match civic_odds c with
                                   | Ok _ => true
                                   | Raise _ => false
                                   end)
                         (seq 0 (S INFLUENCER_SET_SIZE)) = true)
    by (vm_compute; reflexivity).
  intros c Hc. rewrite forallb_forall in Hall.
  specialize (Hall c). destruct (civic_odds c) as [x|e]; [eauto|].
  discriminate Hall. apply in_seq. lia.
Qed.

(** C4: every record that [get_expanded_users] returns carries
    [civic_listeners] and [civic_odds_ratio], and its ratio is at least
    [MIN_CIVIC_ODDS_RATIO]. *)
Theorem output_records_pass_filter api seed_text output_records :
  get_expanded_users api seed_text = Ok output_records ->
  Forall (fun r =>
            is_Some (civic_listeners r)
            /\ exists ratio,
                 civic_odds_ratio r = Some ratio
                 /\ PrimFloat.leb MIN_CIVIC_ODDS_RATIO ratio = true)
         output_records.
Proof.
  unfold get_expanded_users.
  intros (seed_set & _ & Hb)%bind_ok.
  apply bind_ok in Hb as (listeners & _ & Hb).
  apply bind_ok in Hb as (influencers & _ & Hb).
  eapply emit_invariant; [|constructor|exact Hb].
  intros r ratio Hl Hr Hle. eauto.
Qed.

(** [output_records_pass_filter] on a run that returns two records. *)
Lemma output_records_pass_filter_witness :
  exists output_records,
    get_expanded_users Examples.api Examples.seed_text = Ok output_records
    /\ length output_records = 2%nat
    /\ Forall (fun r =>
                 is_Some (civic_listeners r)
                 /\ exists ratio,
                      civic_odds_ratio r = Some ratio
                      /\ PrimFloat.leb MIN_CIVIC_ODDS_RATIO ratio = true)
              output_records.
Proof.
  eexists. split; [vm_compute; reflexivity|]. split; [reflexivity|].
  apply (output_records_pass_filter Examples.api Examples.seed_text).
  vm_compute. reflexivity.
Defined.

(** C5: for [n] handles, [handles_to_rules] returns [ceil(n /
    NUM_HANDLES_PER_RULE)] payloads, in chunk order; payload [j] covers the
    [j]-th run of at most [NUM_HANDLES_PER_RULE] consecutive handles (the
    runs are non-empty and make up the list) and holds three OR-clauses,
    [from:], [@] and [retweets_of:], tagged by clause kind, ruleset name and
    [j]; 65 handles give chunks of 30, 30 and 5 handles. *)
Theorem handles_to_rules_chunks (handles : list string) (ruleset_name : string) :
  let chunks :=
    map (chunk NUM_HANDLES_PER_RULE handles)
        (seq 0 (ceil_div (length handles) NUM_HANDLES_PER_RULE)) in
  length (handles_to_rules handles ruleset_name)
  = ceil_div (length handles) NUM_HANDLES_PER_RULE
  /\ handles_to_rules handles ruleset_name
     = imap (fun j handle_subset =>
               {| rules :=
                   [ {| value := join " OR "
                                   (map (fun s => "from:" +:+ s) handle_subset);
                        tag := "from_" +:+ ruleset_name +:+ "_" +:+ str_of_nat j |};
                     {| value := join " OR "
                                   (map (fun s => "@" +:+ s) handle_subset);
                        tag := "at_" +:+ ruleset_name +:+ "_" +:+ str_of_nat j |};
                     {| value := join " OR "
                                   (map (fun s => "retweets_of:" +:+ s)
                                        handle_subset);
                        tag := "retweets_of_" +:+ ruleset_name +:+ "_"
                                 +:+ str_of_nat j |} ] |})
            chunks
  /\ concat chunks = handles
  /\ Forall (fun handle_subset =>
               (1 <= length handle_subset <= NUM_HANDLES_PER_RULE)%nat) chunks
  /\ Forall (fun update => length (rules update) = 3%nat)
            (handles_to_rules handles ruleset_name)
  /\ (length handles = 65%nat -> map length chunks = [30; 30; 5]%nat).
Proof.
  pose proof NUM_HANDLES_PER_RULE_pos as Hpos.
  assert (Hmap : handles_to_rules handles ruleset_name
    = map (fun j => rule_group handles ruleset_name (j * NUM_HANDLES_PER_RULE))
          (seq 0 (ceil_div (length handles) NUM_HANDLES_PER_RULE))).
  { unfold handles_to_rules. by rewrite range_multiples, map_map. }
  cbv zeta. split; [|split; [|split; [|split; [|split]]]].
  - by rewrite Hmap, length_map, length_seq.
  - rewrite Hmap, imap_fmap.
    rewrite (imap_ext _ (fun j _ =>
               rule_group handles ruleset_name (j * NUM_HANDLES_PER_RULE))).
    + by rewrite imap_seq_0, length_seq.
    + intros j x [-> _]%lookup_seq. simpl. symmetry. apply rule_group_chunk.
  - by apply chunks_concat.
  - apply Forall_forall. intros c (j & -> & Hj)%list_elem_of_fmap.
    apply elem_of_seq in Hj as [_ Hj]. simpl in Hj.
    apply (ceil_div_gt _ Hpos) in Hj.
    rewrite chunk_length. lia.
  - rewrite Hmap. apply Forall_forall.
    by intros u (j & -> & _)%list_elem_of_fmap.
  - intros Hlen. rewrite map_map, Hlen.
    assert (ceil_div 65 NUM_HANDLES_PER_RULE = 3%nat) as -> by reflexivity.
    simpl. by rewrite !chunk_length, Hlen.
Qed.

(** C6: for every input of influencer records (each with a numeric
    [civic_odds_ratio]), the exporter writes the header and then the first
    500 of the records with [followers_count >= 20] and
    [civic_odds_ratio >= 200], stably sorted by [followers_count],
    descending; each row holds screen name, display name, location, follower
    count, relevance score and description. *)
Theorem to_csv_rows (input : list UserRecord) :
  Forall scored input ->
  exists ranked rows,
    ranked ≡ₚ List.filter exported input
    /\ (forall x, x ∈ ranked <->
          x ∈ input /\ 20 <= followers_count (user x)
          /\ exists ratio, civic_odds_ratio x = Some ratio
                           /\ PrimFloat.leb 200%float ratio = true)
    /\ StronglySorted
         (fun a b => followers_count (user b) <= followers_count (user a)) ranked
    /\ (forall k,
          filter (fun x => followers_count (user x) = k) ranked
          = filter (fun x => followers_count (user x) = k)
                   (List.filter exported input))
    /\ to_csv input = Ok (header :: rows)
    /\ (length rows <= 500)%nat
    /\ Forall2 (fun x row =>
                  exists ratio,
                    civic_odds_ratio x = Some ratio
                    /\ row = [CStr (screen_name (user x)); CStr (name (user x));
                              CStr (location (user x));
                              CInt (followers_count (user x));
                              CFloat ratio; CStr (description (user x))])
               (take 500 ranked) rows.
Proof.
  intros Hs.
  set (ranked := sort_desc (fun x => followers_count (user x))
                           (List.filter exported input)).
  assert (Hperm : ranked ≡ₚ List.filter exported input) by apply sort_desc_perm.
  assert (Hin : forall x, x ∈ ranked <-> x ∈ input /\ exported x = true).
  { intros x. rewrite Hperm, !list_elem_of_In. apply filter_In. }
  destruct (mapM_ok csv_row
              (take 500 (map (fun x => (followers_count (user x), x)) ranked)))
    as (rows & Hrows & HF).
  { intros r Hr%subseteq_take. apply list_elem_of_fmap in Hr as (x & -> & Hx).
    apply Hin in Hx as [_ Hx]. apply exported_spec in Hx as [_ (ratio & Hr & _)].
    unfold csv_row, get_civic_odds_ratio. simpl. rewrite Hr. simpl. eauto. }
  exists ranked, rows. split; [done|]. split.
  { intros x. by rewrite Hin, exported_spec. }
  split; [apply sort_desc_sorted|]. split; [intros k; apply sort_desc_stable|].
  split.
  { unfold to_csv. rewrite (read_rows_filter input []) by done. simpl.
    rewrite (sort_desc_map fst).
    change (sort_desc _ (List.filter exported input)) with ranked.
    by rewrite Hrows. }
  rewrite <- fmap_take in HF. apply Forall2_fmap_l in HF. split.
  - apply Forall2_length in HF. rewrite <- HF, length_take. lia.
  - eapply Forall2_impl; [exact HF|]. intros x row Hrow. simpl in Hrow.
    by apply csv_row_ok in Hrow.
Qed.

(** [to_csv_rows] on four records: two are exported, the one with more
    followers first. *)
Lemma to_csv_rows_witness :
  exists ranked rows,
    ranked ≡ₚ List.filter exported Examples.export_input
    /\ List.filter exported Examples.export_input
       = [Examples.scored_record "small" 40 250%float;
          Examples.scored_record "big" 100 10010%float]
    /\ to_csv Examples.export_input = Ok (header :: rows)
    /\ rows = [[CStr "big"; CStr "big"; CStr "Boston"; CInt 100;
                CFloat 10010%float; CStr ""];
               [CStr "small"; CStr "small"; CStr "Boston"; CInt 40;
                CFloat 250%float; CStr ""]]%string.
Proof.
  destruct (to_csv_rows Examples.export_input)
    as (ranked & rows & Hperm & _ & _ & _ & Hcsv & _ & _).
  - repeat constructor; eexists; split; reflexivity.
  - exists ranked, rows. split; [exact Hperm|]. split; [reflexivity|].
    split; [exact Hcsv|].
    vm_compute in Hcsv. injection Hcsv as <-. reflexivity.
Defined.

(** Outside that input: a record whose ratio is not a number passes the
    test [ratio < 200] as false and is exported. *)
Remark to_csv_keeps_nan :
  to_csv [Examples.scored_record "nan" 50 nan]
  = Ok [header;
        [CStr "nan"; CStr "nan"; CStr "Boston"; CInt 50; CFloat nan;
         CStr EmptyString]].
Proof. vm_compute. reflexivity. Qed.

(** C7, counterexample: an [@] inside a token is removed too, so the line
    ["a@b"] gives the handle ["ab"], where stripping only a leading [@]
    from the first token gives ["a@b"]. *)
Lemma read_seed_set_inner_at_sign :
  read_seed_set "a@b" = Ok ["ab"%string]
  /\ handle_of_line "a@b" = Some "a@b"%string
  /\ ~ (forall h, h ∈ ["ab"%string] <-> handle_of_line "a@b" = Some h).
Proof.
  split; [vm_compute; reflexivity|]. split; [vm_compute; reflexivity|].
  intros Hh. pose proof (proj1 (Hh "ab"%string)) as Hab.
  assert (handle_of_line "a@b" = Some "ab"%string) as Heq by (apply Hab; left).
  vm_compute in Heq. discriminate.
Qed.

(** C7, amended: for every seed file in which each non-empty line holds a
    character other than whitespace and [@], [read_seed_set] returns the
    handles without duplicates, and a handle is returned exactly when it is
    the first whitespace-delimited token of a non-empty line from which
    every [@] has been removed; the lines ["@a"], ["a"], [" b "] give
    exactly the handles ["a"] and ["b"]. *)
Theorem read_seed_set_first_tokens contents :
  (forall line, line ∈ split_char newline EmptyString contents ->
     line <> EmptyString -> all_chars space_or_at line = false) ->
  (exists seed_set,
     read_seed_set contents = Ok seed_set /\ NoDup seed_set
     /\ forall h, h ∈ seed_set <->
          exists line, line ∈ split_char newline EmptyString contents
                       /\ line <> EmptyString
                       /\ FirstToken h (remove_char at_sign line))
  /\ split_char newline EmptyString Examples.seed_text = ["@a"; "a"; " b "]%string
  /\ exists seed_set,
       read_seed_set Examples.seed_text = Ok seed_set /\ NoDup seed_set
       /\ forall h, h ∈ seed_set <-> h = "a"%string \/ h = "b"%string.
Proof.
  intros Hlines. split; [by apply read_seed_set_ok|].
  split; [vm_compute; reflexivity|].
  exists ["a"; "b"]%string. split; [vm_compute; reflexivity|].
  split; [by apply (bool_decide_unpack _)|].
  intros h. rewrite !elem_of_cons, elem_of_nil. tauto.
Qed.

(** [read_seed_set_first_tokens] on the seed lines ["@a"], ["a"], [" b "]. *)
Lemma read_seed_set_first_tokens_witness :
  exists seed_set,
    read_seed_set Examples.seed_text = Ok seed_set /\ NoDup seed_set
    /\ forall h, h ∈ seed_set <->
         exists line, line ∈ split_char newline EmptyString Examples.seed_text
                      /\ line <> EmptyString
                      /\ FirstToken h (remove_char at_sign line).
Proof.
  apply (read_seed_set_first_tokens Examples.seed_text).
  intros line Hin Hne.
  assert (Hl : line ∈ ["@a"; "a"; " b "]%string) by exact Hin.
  apply elem_of_cons in Hl as [->|Hl]; [reflexivity|].
  apply elem_of_cons in Hl as [->|Hl]; [reflexivity|].
  apply elem_of_cons in Hl as [->|Hl]; [reflexivity|].
  by apply elem_of_nil in Hl.
Defined.

(** C8, at the failing input: the second line of the file holds one space;
    it passes the [if line] filter, has no token, and [split()[0]] raises
    [IndexError] instead of the line being skipped. *)
Theorem read_seed_set_blank_line_raises :
  split_char newline EmptyString Examples.seed_text_blank_line
  = ["a"; " "; "b"]%string
  /\ read_seed_set Examples.seed_text_blank_line = Raise IndexError.
Proof. split; vm_compute; reflexivity. Qed.

(** C9: a relation fetch that fails yields the empty list, and the pass
    goes on as if the key were not there; a candidate whose metadata fetch
    fails is skipped and the loop goes on with the next one; the whole run
    is the run against a client that answers the empty list wherever a
    relation fetch fails. *)
Theorem fetch_failure_skips_key api :
  (forall handle, followers_ids api handle = None ->
     handle_to_followers api handle = []
     /\ forall before after,
          accumulate (handle_to_followers api) (before ++ handle :: after)
          = accumulate (handle_to_followers api) (before ++ after))
  /\ (forall twitter_id, friends_ids api twitter_id = None ->
        id_to_followees api twitter_id = []
        /\ forall before after,
             accumulate (id_to_followees api) (before ++ twitter_id :: after)
             = accumulate (id_to_followees api) (before ++ after))
  /\ (forall twitter_id, get_user api twitter_id = None ->
        id_to_user_metadata api twitter_id = None
        /\ forall n before after output_records,
             emit api (before ++ (twitter_id, n) :: after) output_records
             = emit api (before ++ after) output_records)
  /\ (forall seed_text,
        get_expanded_users api seed_text
        = get_expanded_users (without_relation_errors api) seed_text).
Proof.
  split; [|split; [|split]].
  - intros handle Hf.
    assert (handle_to_followers api handle = []) as Hnil.
    { unfold handle_to_followers. by rewrite Hf. }
    split; [done|]. intros. by apply accumulate_skip.
  - intros twitter_id Hf.
    assert (id_to_followees api twitter_id = []) as Hnil.
    { unfold id_to_followees. by rewrite Hf. }
    split; [done|]. intros. by apply accumulate_skip.
  - intros twitter_id Hf. split.
    + unfold id_to_user_metadata. by rewrite Hf.
    + intros. by apply emit_skip.
  - intros seed_text. symmetry. apply get_expanded_users_without_errors.
Qed.

(** [fetch_failure_skips_key] on the network of the examples: handle [c],
    listener 1 and candidate 12 cannot be fetched. *)
Lemma fetch_failure_skips_key_witness :
  (handle_to_followers Examples.api "c" = []
   /\ accumulate (handle_to_followers Examples.api) ["a"; "c"; "b"]%string
      = accumulate (handle_to_followers Examples.api) ["a"; "b"]%string)
  /\ (id_to_followees Examples.api 1 = []
      /\ accumulate (id_to_followees Examples.api) [2; 1; 3]
         = accumulate (id_to_followees Examples.api) [2; 3])
  /\ (id_to_user_metadata Examples.api 12 = None
      /\ emit Examples.api [(10, 2%nat); (12, 1%nat); (11, 2%nat)] []
         = emit Examples.api [(10, 2%nat); (11, 2%nat)] []).
Proof.
  destruct (fetch_failure_skips_key Examples.api) as (Hf & Hg & Hu & _).
  split; [|split].
  - destruct (Hf "c"%string) as [H1 H2]; [reflexivity|].
    split; [exact H1|]. exact (H2 ["a"%string] ["b"%string]).
  - destruct (Hg 1) as [H1 H2]; [reflexivity|].
    split; [exact H1|]. exact (H2 [2] [3]).
  - destruct (Hu 12) as [H1 H2]; [reflexivity|].
    split; [exact H1|]. exact (H2 1%nat [(10, 2%nat)] [(11, 2%nat)] []).
Defined.

(** C10: when no seed handle has a follower that can be fetched (an empty
    seed set is a case of it), or no listener has a followee that can be
    fetched, [get_expanded_users] raises [IndexError] at the log line that
    reads the first ranked item; it does not return an empty list. *)
Theorem empty_pass_raises_index_error api seed_text seed_set :
  read_seed_set seed_text = Ok seed_set ->
  (forall handle, handle ∈ seed_set -> handle_to_followers api handle = [])
  \/ (exists civic_listeners,
        pass1 api seed_set = Ok civic_listeners
        /\ forall listener, listener ∈ civic_listeners ->
             id_to_followees api listener.1 = []) ->
  get_expanded_users api seed_text = Raise IndexError.
Proof.
  intros Hseed Hempty. unfold get_expanded_users. rewrite Hseed. simpl.
  destruct Hempty as [Hf|(listeners & Hp & Hf)].
  - unfold pass1. by rewrite accumulate_nil.
  - rewrite Hp. simpl. unfold pass2. rewrite accumulate_nil; [done|].
    intros key (listener & -> & Hin)%list_elem_of_fmap. by apply Hf.
Qed.

(** [empty_pass_raises_index_error] when nothing can be fetched, when no
    followee can be fetched, and on the empty seed file. *)
Lemma empty_pass_raises_index_error_witness :
  get_expanded_users Examples.api_down Examples.seed_text = Raise IndexError
  /\ get_expanded_users Examples.api_no_friends Examples.seed_text
     = Raise IndexError
  /\ get_expanded_users Examples.api EmptyString = Raise IndexError.
Proof.
  split; [|split].
  - apply (empty_pass_raises_index_error Examples.api_down Examples.seed_text
             ["a"; "b"]%string); [vm_compute; reflexivity|].
    left. intros handle _. reflexivity.
  - apply (empty_pass_raises_index_error Examples.api_no_friends
             Examples.seed_text ["a"; "b"]%string); [vm_compute; reflexivity|].
    right. exists [(2, 2%nat); (3, 2%nat); (1, 1%nat); (4, 1%nat)].
    split; [vm_compute; reflexivity|]. intros listener _. reflexivity.
  - apply (empty_pass_raises_index_error Examples.api EmptyString []);
      [vm_compute; reflexivity|].
    left. intros handle Hin. by apply elem_of_nil in Hin.
Defined.

(** ** Further properties of the code *)

Section DictionaryFacts.
Context {V : Type} `{Countable V}.
Implicit Types (d : list (Identity * gset V)) (k : Identity) (v key : V).
Implicit Types (s : gset V) (E : Identity -> V -> Prop).

Lemma entry_elem_of d k s : entry d k = Some s -> (k, s) ∈ d.
Proof.
  induction d as [|[k' s'] d IH]; simpl; [done|].
  case_decide as Hk; [intros [= <-]; subst; left|]. intros. right. auto.
Qed.

Lemma entry_None d k : entry d k = None <-> k ∉ d.*1.
Proof.
  induction d as [|[k' s'] d IH]; simpl.
  - split; [intros _; apply not_elem_of_nil|done].
  - rewrite not_elem_of_cons. case_decide as Hk; [|rewrite IH]; naive_solver.
Qed.

Lemma elem_of_entry d k s : NoDup d.*1 -> (k, s) ∈ d -> entry d k = Some s.
Proof.
  induction d as [|[k' s'] d IH]; simpl; [by intros _ ?%elem_of_nil|].
  intros [Hk' Hd]%NoDup_cons [[= -> ->]|Hin]%elem_of_cons.
  - by rewrite decide_True.
  - rewrite decide_False; [auto|]. intros ->. apply Hk'.
    apply list_elem_of_fmap. by exists (k, s).
Qed.

Lemma entry_note_eq d k v :
  entry (note d k v) k = Some ({[ v ]} ∪ default ∅ (entry d k)).
Proof.
  induction d as [|[k' s'] d IH]; simpl.
  - rewrite decide_True by done. f_equal. set_solver.
  - case_decide as Hk; simpl; [by rewrite decide_True|].
    by rewrite decide_False.
Qed.

Lemma entry_note_ne d k k' v : k' <> k -> entry (note d k v) k' = entry d k'.
Proof.
  intros Hne. induction d as [|[k0 s0] d IH]; simpl.
  - case_decide; [congruence|done].
  - case_decide as Hk; simpl; [subst; by rewrite !decide_False|].
    case_decide; [done|apply IH].
Qed.

Lemma note_keys_in d k v : k ∈ d.*1 -> (note d k v).*1 = d.*1.
Proof.
  induction d as [|[k' s'] d IH]; simpl; [by intros ?%elem_of_nil|].
  intros Hin. case_decide as Hk; simpl; [done|].
  apply elem_of_cons in Hin as [->|Hin]; [done|]. f_equal. by apply IH.
Qed.

Lemma note_keys_out d k v : k ∉ d.*1 -> (note d k v).*1 = d.*1 ++ [k].
Proof.
  induction d as [|[k' s'] d IH]; simpl; [done|].
  intros [Hne Hout]%not_elem_of_cons.
  case_decide as Hk; simpl; [by subst|]. f_equal. by apply IH.
Qed.

Lemma note_NoDup d k v : NoDup d.*1 -> NoDup (note d k v).*1.
Proof.
  intros Hd. destruct (decide (k ∈ d.*1)) as [Hin|Hout].
  - by rewrite note_keys_in.
  - rewrite note_keys_out by done.
    apply NoDup_app. split; [done|]. split; [|apply NoDup_singleton].
    by intros k' Hk' ->%list_elem_of_singleton.
Qed.

(** Noting [v] under [k] adds that one pair. *)
Lemma note_Holds d E k v :
  Holds d E -> Holds (note d k v) (fun k' v' => E k' v' \/ (k' = k /\ v' = v)).
Proof.
  intros (Hnd & Hne & HE). split; [by apply note_NoDup|]. split.
  - intros k' s. destruct (decide (k' = k)) as [->|Hk].
    + rewrite entry_note_eq. intros [= <-]. set_solver.
    + rewrite entry_note_ne by done. apply Hne.
  - intros k' v'. destruct (decide (k' = k)) as [->|Hk].
    + rewrite entry_note_eq. rewrite <- HE. split.
      * intros (s & [= <-] & Hv). apply elem_of_union in Hv as [Hv|Hv].
        { right. split; [done|]. by apply elem_of_singleton in Hv. }
        left. destruct (entry d k) as [s|]; simpl in Hv; [eauto|set_solver].
      * intros [(s & Hs & Hv)|[_ ->]]; eexists; (split; [done|]).
        { rewrite Hs. simpl. set_solver. }
        set_solver.
    + rewrite entry_note_ne by done. rewrite HE. naive_solver.
Qed.

Lemma Holds_ext d E E' :
  (forall k v, E k v <-> E' k v) -> Holds d E -> Holds d E'.
Proof.
  intros Hext (Hnd & Hne & HE). split; [done|]. split; [done|].
  intros k v. by rewrite HE.
Qed.

Lemma Holds_nil : Holds (@nil (Identity * gset V)) (fun _ _ => False).
Proof.
  split; [constructor|]. split; [done|]. intros k v. simpl. naive_solver.
Qed.

Lemma foldl_note_Holds d E ids key :
  Holds d E ->
  Holds (foldl (fun d' i => note d' i key) d ids)
        (fun k v => E k v \/ (k ∈ ids /\ v = key)).
Proof.
  revert d E. induction ids as [|i ids IH]; intros d E Hd; simpl.
  - eapply Holds_ext; [|exact Hd]. intros k v. rewrite elem_of_nil. naive_solver.
  - eapply Holds_ext; [|apply IH, note_Holds, Hd].
    intros k v. simpl. rewrite elem_of_cons. naive_solver.
Qed.

Lemma accumulate_from_Holds (related : V -> list Identity) d E keys :
  Holds d E ->
  Holds (foldl (fun d key => foldl (fun d' i => note d' i key) d (related key))
               d keys)
        (fun k v => E k v \/ (v ∈ keys /\ k ∈ related v)).
Proof.
  revert d E. induction keys as [|key keys IH]; intros d E Hd; simpl.
  - eapply Holds_ext; [|exact Hd]. intros k v. rewrite elem_of_nil. naive_solver.
  - eapply Holds_ext; [|apply IH, foldl_note_Holds, Hd].
    intros k v. simpl. rewrite elem_of_cons. naive_solver.
Qed.

(** After a pass the dictionary holds the inverse of the fetched relation. *)
Lemma accumulate_Holds (related : V -> list Identity) keys :
  Holds (accumulate related keys) (fun k v => v ∈ keys /\ k ∈ related v).
Proof.
  eapply Holds_ext; [|apply accumulate_from_Holds, Holds_nil].
  intros k v. simpl. naive_solver.
Qed.

Lemma Holds_elem_of d E k s :
  Holds d E -> (k, s) ∈ d -> s <> ∅ /\ forall v, v ∈ s <-> E k v.
Proof.
  intros (Hnd & Hne & HE) Hin%elem_of_entry; [|done].
  split; [eauto|]. intros v. rewrite <- HE. split; [eauto|].
  intros (s' & Hs' & Hv). congruence.
Qed.

Lemma Holds_key d E k v : Holds d E -> E k v -> exists s, (k, s) ∈ d /\ v ∈ s.
Proof.
  intros (Hnd & Hne & HE) (s & Hs & Hv)%HE. exists s.
  split; [by apply entry_elem_of|done].
Qed.
End DictionaryFacts.

Section SortedFacts.
Context {A B : Type}.

Lemma StronglySorted_take (R : A -> A -> Prop) (l : list A) (n : nat) :
  StronglySorted R l -> StronglySorted R (take n l).
Proof.
  intros Hs. revert n. induction Hs as [|x l Hs IH Hx]; intros [|n]; simpl;
    try constructor; [apply IH|].
  eapply Forall_forall. intros y Hy%subseteq_take.
  rewrite Forall_forall in Hx. auto.
Qed.

Lemma StronglySorted_map (R : A -> A -> Prop) (R' : B -> B -> Prop)
    (f : A -> B) (l : list A) :
  (forall x y, R x y -> R' (f x) (f y)) ->
  StronglySorted R l -> StronglySorted R' (map f l).
Proof.
  intros Hf. induction 1 as [|x l Hs IH Hx]; simpl; constructor; [done|].
  apply Forall_forall. intros y (x' & -> & Hx')%list_elem_of_fmap.
  rewrite Forall_forall in Hx. auto.
Qed.
End SortedFacts.

Section PassFacts.
Context {V : Type} `{Countable V}.
Implicit Types (d : list (Identity * gset V)) (k : Identity) (cap n : nat).

Lemma top_ok cap d kept :
  top cap d = Ok kept ->
  d <> [] /\ kept = map (fun item => (item.1, size item.2)) (take cap (rank d)).
Proof.
  destruct d as [|x d]; [done|]. rewrite top_nonempty by done.
  by intros [= <-].
Qed.

Lemma top_keys cap d kept :
  top cap d = Ok kept -> kept.*1 = (take cap (rank d)).*1.
Proof.
  intros [_ ->]%top_ok. rewrite <- list_fmap_compose. by apply list_fmap_ext.
Qed.

Lemma top_NoDup cap d kept :
  NoDup d.*1 -> top cap d = Ok kept -> NoDup kept.*1.
Proof.
  intros Hd Hk. rewrite (top_keys _ _ _ Hk), fmap_take.
  eapply sublist_NoDup; [|apply sublist_take].
  by rewrite (fmap_Permutation fst _ _ (rank_perm d)).
Qed.

Lemma top_length cap d kept :
  top cap d = Ok kept -> length kept = Nat.min cap (length d).
Proof.
  intros [_ ->]%top_ok. rewrite length_map, length_take.
  unfold rank. by rewrite sort_desc_length.
Qed.

Lemma top_elem_of cap d kept k n :
  top cap d = Ok kept -> (k, n) ∈ kept ->
  exists s, (k, s) ∈ d /\ n = size s.
Proof.
  intros [_ ->]%top_ok ([k' s] & [= -> ->] & Hin)%list_elem_of_fmap.
  exists s. split; [|done].
  rewrite <- (rank_perm d). by eapply subseteq_take.
Qed.

Lemma top_sorted cap d kept :
  top cap d = Ok kept ->
  StronglySorted (fun a b => (b.2 <= a.2)%nat) kept.
Proof.
  intros [_ ->]%top_ok.
  eapply StronglySorted_map; [|apply StronglySorted_take, rank_sorted].
  by intros x y.
Qed.
End PassFacts.

Lemma size_le_length `{Countable A} (s : gset A) (l : list A) :
  (forall x, x ∈ s -> x ∈ l) -> (size s <= length l)%nat.
Proof.
  intros Hs. unfold size, set_size. simpl.
  apply submseteq_length, NoDup_submseteq; [apply NoDup_elements|].
  intros x Hx%elem_of_elements. auto.
Qed.

(** X1: after a pass the accumulation dictionary holds the inverse of the
    fetched relation: one entry for every id that was seen, none for any
    other, and under an id exactly the keys whose fetch returned it; no set
    is empty. *)
Theorem accumulate_inverts_relation {V : Type} `{Countable V}
    (related : V -> list Identity) (keys : list V) :
  NoDup (accumulate related keys).*1
  /\ (forall k s, (k, s) ∈ accumulate related keys ->
        s <> ∅ /\ forall v, v ∈ s <-> v ∈ keys /\ k ∈ related v)
  /\ (forall k v, v ∈ keys -> k ∈ related v ->
        exists s, (k, s) ∈ accumulate related keys /\ v ∈ s).
Proof.
  pose proof (accumulate_Holds related keys) as Hd.
  split; [apply Hd|]. split.
  - intros k s Hin. exact (Holds_elem_of _ _ _ _ Hd Hin).
  - intros k v Hv Hk. apply (Holds_key _ _ _ _ Hd). by split.
Qed.

(** X2: the listeners that Pass 1 keeps are at most [LISTENER_SET_SIZE],
    all different, in descending order of engagement, and the engagement
    count of a listener is the number of distinct seed handles whose
    fetched followers hold it: at least 1, at most the size of the seed
    set. *)
Theorem pass1_listeners api (seed_set : list string) civic_listeners :
  pass1 api seed_set = Ok civic_listeners ->
  (length civic_listeners <= LISTENER_SET_SIZE)%nat
  /\ NoDup civic_listeners.*1
  /\ StronglySorted (fun a b => (b.2 <= a.2)%nat) civic_listeners
  /\ forall follower_id n, (follower_id, n) ∈ civic_listeners ->
       (1 <= n <= length seed_set)%nat
       /\ exists handles : gset string,
            n = size handles
            /\ forall handle, handle ∈ handles <->
                 handle ∈ seed_set
                 /\ follower_id ∈ handle_to_followers api handle.
Proof.
  unfold pass1. intros Hp.
  pose proof (accumulate_Holds (handle_to_followers api) seed_set) as Hd.
  split; [rewrite (top_length _ _ _ Hp); lia|].
  split; [eapply top_NoDup; [apply Hd|done]|].
  split; [by eapply top_sorted|].
  intros id n (s & Hin & ->)%(top_elem_of _ _ _ _ _ Hp).
  destruct (Holds_elem_of _ _ _ _ Hd Hin) as [Hne Hs]. split.
  - split.
    + assert (size s <> 0%nat); [|lia].
      apply size_non_empty_iff. by intros ?%leibniz_equiv.
    + apply size_le_length. intros h Hh. by apply Hs.
  - by exists s.
Qed.

Lemma pass1_listeners_witness :
  exists civic_listeners,
    pass1 Examples.api ["a"; "b"]%string = Ok civic_listeners
    /\ civic_listeners = [(2, 2%nat); (3, 2%nat); (1, 1%nat); (4, 1%nat)]
    /\ NoDup civic_listeners.*1.
Proof.
  eexists. split; [vm_compute; reflexivity|]. split; [reflexivity|].
  apply (pass1_listeners Examples.api ["a"; "b"]%string). vm_compute. reflexivity.
Defined.

Section LoopFacts.
Implicit Types (api : TweepyAPI) (cands : list (Identity * nat)).
Implicit Types (out res : list UserRecord).

Lemma StronglySorted_sublist {A : Type} (R : A -> A -> Prop) (l k : list A) :
  l `sublist_of` k -> StronglySorted R k -> StronglySorted R l.
Proof.
  induction 1 as [|x l k Hsub IH|x l k Hsub IH]; intros Hk.
  - constructor.
  - apply StronglySorted_inv in Hk as [Hk Hx]. constructor; [auto|].
    apply Forall_forall. intros y Hy. rewrite Forall_forall in Hx.
    apply Hx. by eapply sublist_subseteq.
  - apply StronglySorted_inv in Hk as [Hk _]. auto.
Qed.

(** What the loop appends: one record for each candidate of a sublist of
    the candidates, in their order; the record holds the fetched user, the
    candidate's count and a ratio that passes the test. *)
Lemma emit_sublist api cands out res :
  emit api cands out = Ok res ->
  exists kept chosen,
    res = out ++ kept /\ chosen `sublist_of` cands
    /\ Forall2 (fun c r =>
                  get_user api c.1 = Some (user r)
                  /\ civic_listeners r = Some c.2
                  /\ followers_count (user r) <> 0
                  /\ exists ratio,
                       civic_odds_ratio r = Some ratio
                       /\ PrimFloat.leb MIN_CIVIC_ODDS_RATIO ratio = true)
               chosen kept.
Proof.
  revert out. induction cands as [|[id n] cands IH]; intros out; simpl.
  - intros [= <-]. exists [], []. rewrite app_nil_r. repeat split; constructor.
  - unfold id_to_user_metadata.
    destruct (get_user api id) as [u|] eqn:Hu; simpl.
    2:{ intros (kept & chosen & -> & Hsub & HF)%IH.
        exists kept, chosen. repeat split; [by constructor|done]. }
    intros (u' & Hu' & Hb)%bind_ok. apply bind_ok in Hb as (ratio & Hr & Hb).
    assert (followers_count u <> 0) as Hnz.
    { intros Hz. rewrite add_civic_stats_zero in Hu' by done.
      injection Hu' as <-. done. }
    apply add_civic_stats_ok in Hu' as [Huser Hcount]. simpl in Huser.
    unfold get_civic_odds_ratio in Hr.
    destruct (civic_odds_ratio u') as [x|] eqn:Hx; [|done]. injection Hr as ->.
    destruct (PrimFloat.leb MIN_CIVIC_ODDS_RATIO ratio) eqn:Hle.
    + apply IH in Hb as (kept & chosen & -> & Hsub & HF).
      exists (u' :: kept), ((id, n) :: chosen). rewrite <- app_assoc.
      split; [done|]. split; [by constructor|].
      constructor; [|done]. simpl. rewrite Huser. eauto 10.
    + apply IH in Hb as (kept & chosen & -> & Hsub & HF).
      exists kept, chosen. repeat split; [by constructor|done].
Qed.

(** The candidates of a run: at most [INFLUENCER_SET_SIZE], in descending
    order of their count, which lies between 1 and [LISTENER_SET_SIZE]. *)
Lemma pass2_candidates api seed_set listeners influencers :
  pass1 api seed_set = Ok listeners ->
  pass2 api listeners = Ok influencers ->
  (length influencers <= INFLUENCER_SET_SIZE)%nat
  /\ NoDup influencers.*1
  /\ StronglySorted (fun a b => (b.2 <= a.2)%nat) influencers
  /\ forall id n, (id, n) ∈ influencers ->
       (1 <= n <= LISTENER_SET_SIZE)%nat
       /\ exists followers : gset Identity,
            n = size followers
            /\ forall listener, listener ∈ followers <->
                 listener ∈ listeners.*1 /\ id ∈ id_to_followees api listener.
Proof.
  unfold pass1, pass2. intros H1 H2.
  pose proof (accumulate_Holds (id_to_followees api) (map fst listeners)) as Hd.
  split; [rewrite (top_length _ _ _ H2); lia|].
  split; [eapply top_NoDup; [apply Hd|done]|].
  split; [by eapply top_sorted|].
  intros id n (s & Hin & ->)%(top_elem_of _ _ _ _ _ H2).
  destruct (Holds_elem_of _ _ _ _ Hd Hin) as [Hne Hs]. split; [|by exists s].
  split.
  - assert (size s <> 0%nat); [|lia].
    apply size_non_empty_iff. by intros ?%leibniz_equiv.
  - etransitivity; [apply (size_le_length s (map fst listeners))|].
    + intros l Hl. by apply Hs.
    + rewrite length_map, (top_length _ _ _ H1). lia.
Qed.

Lemma get_expanded_users_ok api seed_text output_records :
  get_expanded_users api seed_text = Ok output_records ->
  exists seed_set listeners influencers,
    read_seed_set seed_text = Ok seed_set
    /\ pass1 api seed_set = Ok listeners
    /\ pass2 api listeners = Ok influencers
    /\ emit api influencers [] = Ok output_records.
Proof.
  unfold get_expanded_users.
  intros (seed_set & Hs & Hb)%bind_ok.
  apply bind_ok in Hb as (listeners & H1 & Hb).
  apply bind_ok in Hb as (influencers & H2 & Hb). eauto 10.
Qed.
End LoopFacts.

(** X3: a run returns at most [INFLUENCER_SET_SIZE] records; each is a user
    that [get_user] returned, with followers, and its [civic_listeners] is
    between 1 and [LISTENER_SET_SIZE], so that the denominator
    [INFLUENCER_SET_SIZE + 1 - civic_listeners] is never zero in a run. *)
Theorem expanded_users_bounds api seed_text output_records :
  get_expanded_users api seed_text = Ok output_records ->
  (length output_records <= INFLUENCER_SET_SIZE)%nat
  /\ Forall (fun r =>
               followers_count (user r) <> 0
               /\ (exists twitter_id, get_user api twitter_id = Some (user r))
               /\ exists n, civic_listeners r = Some n
                            /\ (1 <= n <= LISTENER_SET_SIZE)%nat
                            /\ 0 < Z.of_nat INFLUENCER_SET_SIZE + 1 - Z.of_nat n)
            output_records.
Proof.
  intros (seed_set & listeners & influencers & _ & H1 & H2 & He)%get_expanded_users_ok.
  destruct (pass2_candidates _ _ _ _ H1 H2) as (Hlen & _ & _ & Hn).
  apply emit_sublist in He as (kept & chosen & -> & Hsub & HF). simpl. split.
  - rewrite <- (Forall2_length _ _ _ HF).
    apply sublist_length in Hsub. lia.
  - apply Forall_forall. intros r Hr.
    destruct (Forall2_elem_r _ _ _ _ HF Hr) as ([id n] & Hc & Hu & Hcount & Hnz & _).
    simpl in *. split; [done|]. split; [eauto|]. exists n. split; [done|].
    assert ((id, n) ∈ influencers) as Hin by (by eapply sublist_subseteq).
    apply Hn in Hin as [Hb _]. unfold LISTENER_SET_SIZE, INFLUENCER_SET_SIZE in *.
    lia.
Qed.

Lemma expanded_users_bounds_witness :
  exists output_records,
    get_expanded_users Examples.api Examples.seed_text = Ok output_records
    /\ (length output_records <= INFLUENCER_SET_SIZE)%nat
    /\ map civic_listeners output_records = [Some 2%nat; Some 2%nat].
Proof.
  eexists. split; [vm_compute; reflexivity|].
  split; [|reflexivity].
  apply (expanded_users_bounds Examples.api Examples.seed_text).
  vm_compute. reflexivity.
Defined.

(** X4: the records of a run come in descending order of
    [civic_listeners]: the loop keeps the order of the ranked candidates. *)
Theorem expanded_users_ranked api seed_text output_records :
  get_expanded_users api seed_text = Ok output_records ->
  StronglySorted
    (fun a b => exists n m, civic_listeners a = Some n
                            /\ civic_listeners b = Some m /\ (m <= n)%nat)
    output_records.
Proof.
  intros (seed_set & listeners & influencers & _ & H1 & H2 & He)%get_expanded_users_ok.
  destruct (pass2_candidates _ _ _ _ H1 H2) as (_ & _ & Hsorted & _).
  apply emit_sublist in He as (kept & chosen & -> & Hsub & HF). simpl.
  apply (StronglySorted_sublist _ _ _ Hsub) in Hsorted. clear Hsub.
  induction HF as [|c r chosen kept (_ & Hc & _) HF IH]; [constructor|].
  apply StronglySorted_inv in Hsorted as [Hs Hc']. constructor; [auto|].
  apply Forall_forall. intros r' Hr'.
  destruct (Forall2_elem_r _ _ _ _ HF Hr') as (c' & Hin & _ & Hcount & _).
  rewrite Forall_forall in Hc'. exists c.2, c'.2. eauto.
Qed.

Lemma expanded_users_ranked_witness :
  exists output_records,
    get_expanded_users Examples.api Examples.seed_text = Ok output_records
    /\ StronglySorted
         (fun a b => exists n m, civic_listeners a = Some n
                                 /\ civic_listeners b = Some m /\ (m <= n)%nat)
         output_records.
Proof.
  eexists. split; [vm_compute; reflexivity|].
  apply (expanded_users_ranked Examples.api Examples.seed_text).
  vm_compute. reflexivity.
Defined.

(** X5: a candidate that is fetched with no follower ends the metadata loop
    with [KeyError], whatever comes after it, once the candidates before it
    have been handled. *)
Theorem emit_zero_followers_raises api before twitter_id n after
    output_records handled (account : User) :
  emit api before output_records = Ok handled ->
  get_user api twitter_id = Some account ->
  followers_count account = 0 ->
  emit api (before ++ (twitter_id, n) :: after) output_records = Raise KeyError.
Proof.
  intros Hb Hu Hz. rewrite emit_app, Hb. simpl.
  by eapply emit_zero_followers.
Qed.

Lemma emit_zero_followers_raises_witness :
  emit Examples.api_zero [(10, 2%nat); (11, 2%nat); (12, 1%nat)] []
  = Raise KeyError.
Proof.
  apply (emit_zero_followers_raises Examples.api_zero [(10, 2%nat)] 11 2
           [(12, 1%nat)] []
           [ {| user := Examples.account "ten" 100;
                civic_listeners := Some 2%nat;
                civic_odds_ratio :=
                  Some (PrimFloat.div (PrimFloat.div 2 999)
                          (PrimFloat.div 100 (PrimFloat.sub 5e8 100))) |} ]
           (Examples.account "eleven" 0)).
  - vm_compute. reflexivity.
  - reflexivity.
  - reflexivity.
Defined.

Section ExportErrors.
Implicit Types (x : UserRecord) (input : list UserRecord).
Implicit Types (rows : list (Z * UserRecord)).

(** The reading loop stops with [KeyError] at the first record that passes
    the follower test and has no [civic_odds_ratio]; without one it returns
    rows that all have the key, at most one for each record read. *)
Lemma read_rows_cases input rows :
  Forall (fun r => is_Some (civic_odds_ratio r.2)) rows ->
  (Exists (fun x => 20 <= followers_count (user x)
                    /\ civic_odds_ratio x = None) input
   /\ read_rows input rows = Raise KeyError)
  \/ (Forall (fun x => 20 <= followers_count (user x) ->
                       is_Some (civic_odds_ratio x)) input
      /\ exists rows',
           read_rows input rows = Ok rows'
           /\ Forall (fun r => is_Some (civic_odds_ratio r.2)) rows'
           /\ (length rows' <= length rows + length input)%nat).
Proof.
  revert rows. induction input as [|x input IH]; intros rows Hrows; simpl.
  - right. split; [constructor|]. exists rows. split; [done|]. split; [done|lia].
  - destruct (Z.ltb_spec (followers_count (user x)) 20) as [Hlt|Hge].
    + destruct (IH rows Hrows) as [[He Hr]|[Hall (rows' & Hr & Hk & Hlen)]].
      * left. split; [by right|done].
      * right. split; [constructor; [lia|done]|].
        exists rows'. split; [done|]. split; [done|lia].
    + unfold get_civic_odds_ratio.
      destruct (civic_odds_ratio x) as [ratio|] eqn:Hx; simpl.
      2:{ left. split; [|done]. left. by split. }
      assert (Forall (fun r => is_Some (civic_odds_ratio r.2))
                     (rows ++ [(followers_count (user x), x)])) as Hrows'.
      { apply Forall_app. split; [done|]. constructor; [|done]. simpl.
        by rewrite Hx. }
      destruct (PrimFloat.ltb ratio 200).
      * destruct (IH rows Hrows) as [[He Hr]|[Hall (rows' & Hr & Hk & Hlen)]].
        { left. split; [by right|done]. }
        right. split; [constructor; [by rewrite Hx|done]|].
        exists rows'. split; [done|]. split; [done|lia].
      * destruct (IH _ Hrows') as [[He Hr]|[Hall (rows' & Hr & Hk & Hlen)]].
        { left. split; [by right|done]. }
        right. split; [constructor; [by rewrite Hx|done]|].
        exists rows'. split; [done|]. split; [done|].
        rewrite length_app in Hlen. simpl in Hlen. lia.
Qed.

(** Rows that have the key are written. *)
Lemma write_rows_ok rows :
  Forall (fun r => is_Some (civic_odds_ratio r.2)) rows ->
  exists data,
    mapM csv_row (take 500 (sort_desc fst rows)) = Ok data
    /\ (length data <= 500)%nat /\ (length data <= length rows)%nat.
Proof.
  intros Hrows.
  destruct (mapM_ok csv_row (take 500 (sort_desc fst rows))) as (data & Hd & HF).
  { intros r Hr%subseteq_take. rewrite (sort_desc_perm fst rows) in Hr.
    rewrite Forall_forall in Hrows. destruct (Hrows r Hr) as [ratio Hratio].
    unfold csv_row, get_civic_odds_ratio. rewrite Hratio. simpl. eauto. }
  exists data. split; [done|].
  rewrite <- (Forall2_length _ _ _ HF), length_take, sort_desc_length. lia.
Qed.
End ExportErrors.

(** X6: the exporter fails only with [KeyError], and exactly when some
    input record with at least 20 followers has no [civic_odds_ratio]; a
    record with fewer followers is dropped before the key is read.
    Otherwise it writes the header and at most 500 rows, never more than
    there are records. *)
Theorem to_csv_key_error (input : list UserRecord) :
  (to_csv input = Raise KeyError <->
   exists x, x ∈ input /\ 20 <= followers_count (user x)
             /\ civic_odds_ratio x = None)
  /\ (forall e, to_csv input = Raise e -> e = KeyError)
  /\ ((forall x, x ∈ input -> 20 <= followers_count (user x) ->
         is_Some (civic_odds_ratio x)) ->
      exists data,
        to_csv input = Ok (header :: data)
        /\ (length data <= 500)%nat /\ (length data <= length input)%nat).
Proof.
  unfold to_csv.
  destruct (read_rows_cases input []) as [[He Hr]|[Hall (rows & Hr & Hk & Hlen)]];
    [constructor|..]; rewrite Hr; simpl.
  - apply Exists_exists in He. split; [done|]. split; [by intros e [= <-]|].
    intros Hin. destruct He as (x & Hx & Hge & Hnone).
    destruct (Hin x Hx Hge) as [ratio Hratio]. congruence.
  - destruct (write_rows_ok rows Hk) as (data & -> & Hdata & Hdata'). simpl.
    rewrite Forall_forall in Hall. split; [|split; [done|]].
    + split; [done|]. intros (x & Hx & Hge & Hnone).
      destruct (Hall x Hx Hge) as [ratio Hratio]. congruence.
    + intros _. exists data. split; [done|]. simpl in Hlen. lia.
Qed.

Lemma to_csv_key_error_witness :
  to_csv (Examples.export_input
          ++ [ {| user := Examples.account "bare" 25;
                  civic_listeners := None; civic_odds_ratio := None |} ])
  = Raise KeyError
  /\ exists data,
       to_csv (Examples.export_input
               ++ [ {| user := Examples.account "bare" 19;
                       civic_listeners := None; civic_odds_ratio := None |} ])
       = Ok (header :: data) /\ length data = 2%nat.
Proof.
  split.
  - apply (proj1 (to_csv_key_error _)). eexists. split; [|split].
    + apply elem_of_app. right. left.
    + simpl. lia.
    + reflexivity.
  - eexists. split; vm_compute; reflexivity.
Defined.



Section LengthFacts.
#[local] Arguments append !_ _ / : simpl nomatch.
Local Open Scope nat_scope.
Implicit Types (s t prefix : string) (l : list string).

Lemma length_append s t :
  String.length (s +:+ t) = String.length s + String.length t.
Proof. induction s as [|c s IH]; simpl; [done|]. by rewrite IH. Qed.

(** [len(sep.join(l))]: the characters of the parts and a separator
    between any two. *)
Lemma length_join sep l :
  String.length (join sep l)
  = sum_list (map String.length l) + String.length sep * (length l - 1).
Proof.
  unfold join. induction l as [|s l IH]; simpl; [lia|].
  destruct l as [|t l]; [simpl; lia|].
  rewrite !length_append, IH. simpl. lia.
Qed.

Lemma sum_list_bound (f : string -> nat) l b :
  Forall (fun s => f s <= b) l -> sum_list (map f l) <= length l * b.
Proof. induction 1; simpl; lia. Qed.

Lemma length_clause prefix l bound :
  Forall (fun s => String.length s <= bound) l ->
  String.length (clause prefix l)
  <= length l * (String.length prefix + bound) + 4 * (length l - 1).
Proof.
  intros Hl. unfold clause. rewrite length_join, length_map.
  change (String.length " OR ") with 4.
  apply Nat.add_le_mono_r.
  rewrite map_map. apply sum_list_bound.
  eapply Forall_impl; [exact Hl|]. intros s Hs. simpl in Hs |- *.
  rewrite length_append. lia.
Qed.
End LengthFacts.

Section TagFacts.
#[local] Arguments append !_ _ / : simpl nomatch.
Local Open Scope nat_scope.

Lemma str_of_nat_inj n m : str_of_nat n = str_of_nat m -> n = m.
Proof.
  unfold str_of_nat. intros Heq. apply Unsigned.to_uint_inj.
  assert (forall k, Nat.to_uint k <> Decimal.Nil) as Hnn.
  { intros k. rewrite <- (Unsigned.of_to k), Unsigned.to_of.
    apply unorm_nonnil. }
  pose proof (NilZero.usu _ (Hnn n)) as Hn.
  pose proof (NilZero.usu _ (Hnn m)) as Hm. congruence.
Qed.

Lemma append_inj_r (s t1 t2 : string) : s +:+ t1 = s +:+ t2 -> t1 = t2.
Proof. induction s as [|c s IH]; simpl; [done|]. intros [= ?]. auto. Qed.

(** A tag tells the clause kind and the chunk. *)
Lemma rule_tag_inj (kind1 kind2 name : string) (j1 j2 : nat) :
  kind1 ∈ ["from"; "at"; "retweets_of"]%string ->
  kind2 ∈ ["from"; "at"; "retweets_of"]%string ->
  rule_tag kind1 name (j1 * NUM_HANDLES_PER_RULE)
  = rule_tag kind2 name (j2 * NUM_HANDLES_PER_RULE) ->
  kind1 = kind2 /\ j1 = j2.
Proof.
  unfold rule_tag. rewrite !Nat.div_mul by done.
  rewrite !elem_of_cons, !elem_of_nil.
  intros [->|[->|[->|[]]]] [->|[->|[->|[]]]]; simpl; intros Heq;
    try discriminate Heq; (split; [done|]);
    injection Heq as Heq; apply append_inj_r in Heq;
    injection Heq as Heq; by apply str_of_nat_inj.
Qed.
End TagFacts.

Section PayloadFacts.
Local Open Scope nat_scope.
Implicit Types (handles : list string) (ruleset_name : string).

Lemma handles_to_rules_groups handles ruleset_name :
  handles_to_rules handles ruleset_name
  = map (fun j => rule_group handles ruleset_name (j * NUM_HANDLES_PER_RULE))
        (seq 0 (ceil_div (length handles) NUM_HANDLES_PER_RULE)).
Proof.
  unfold handles_to_rules.
  by rewrite (range_multiples _ NUM_HANDLES_PER_RULE_pos), map_map.
Qed.


Lemma chunk_subseteq {A : Type} (size : nat) (l : list A) (j : nat) (x : A) :
  x ∈ chunk size l j -> x ∈ l.
Proof.
  unfold chunk. intros Hx%subseteq_take. by eapply subseteq_drop.
Qed.

Lemma rule_group_tags handles ruleset_name i :
  map tag (rules (rule_group handles ruleset_name i))
  = [rule_tag "from" ruleset_name i; rule_tag "at" ruleset_name i;
     rule_tag "retweets_of" ruleset_name i].
Proof. reflexivity. Qed.

Lemma tags_NoDup handles ruleset_name (chunks : list nat) :
  NoDup chunks ->
  NoDup (map tag
           (concat (map (fun j => rules (rule_group handles ruleset_name
                                           (j * NUM_HANDLES_PER_RULE)))
                        chunks))).
Proof.
  assert (Hkinds : forall kind,
            kind ∈ ["from"; "at"; "retweets_of"]%string ->
            kind ∈ ["from"; "at"; "retweets_of"]%string) by done.
  assert (Hin : forall (js : list nat) t,
    t ∈ map tag (concat (map (fun j => rules (rule_group handles ruleset_name
                                               (j * NUM_HANDLES_PER_RULE))) js)) ->
    exists j kind, j ∈ js /\ kind ∈ ["from"; "at"; "retweets_of"]%string
                   /\ t = rule_tag kind ruleset_name (j * NUM_HANDLES_PER_RULE)).
  { induction js as [|j js IH]; intros t; simpl; [by intros ?%elem_of_nil|].
    rewrite !elem_of_cons. intros [->|[->|[->|Ht]]].
    - exists j, "from"%string. split; [left|].
      split; [rewrite !elem_of_cons; auto|done].
    - exists j, "at"%string. split; [left|].
      split; [rewrite !elem_of_cons; auto|done].
    - exists j, "retweets_of"%string. split; [left|].
      split; [rewrite !elem_of_cons; auto|done].
    - destruct (IH t Ht) as (j' & kind & Hj' & Hk & ->).
      exists j', kind. split; [by right|done]. }
  induction 1 as [|j js Hj Hjs IH]; simpl; [constructor|].
  assert (Hfresh : forall kind,
            kind ∈ ["from"; "at"; "retweets_of"]%string ->
            rule_tag kind ruleset_name (j * NUM_HANDLES_PER_RULE)
            ∉ map tag (concat (map (fun j => rules (rule_group handles ruleset_name
                                               (j * NUM_HANDLES_PER_RULE))) js))).
  { intros kind Hk (j' & kind' & Hj' & Hk' & Heq)%Hin.
    apply rule_tag_inj in Heq as [_ ->]; done. }
  repeat (apply NoDup_cons; split); [..|exact IH].
  - rewrite !not_elem_of_cons. repeat split.
    + intros [[=] _]%rule_tag_inj; rewrite !elem_of_cons; auto.
    + intros [[=] _]%rule_tag_inj; rewrite !elem_of_cons; auto.
    + apply Hfresh. rewrite !elem_of_cons. auto.
  - rewrite !not_elem_of_cons. split.
    + intros [[=] _]%rule_tag_inj; rewrite !elem_of_cons; auto.
    + apply Hfresh. rewrite !elem_of_cons. auto.
  - apply Hfresh. rewrite !elem_of_cons. auto.
Qed.
End PayloadFacts.

(** X8: when no handle is longer than 15 characters (Twitter's limit), no
    rule value is longer than 926 characters, which is below the 2048 that
    the module's comment names; the three values of a payload together have
    at most 2238. *)
Theorem rule_values_bounded (handles : list string) (ruleset_name : string) :
  Forall (fun handle => (String.length handle <= 15)%nat) handles ->
  Forall (fun update =>
            Forall (fun rule => (String.length (value rule) <= 926)%nat)
                   (rules update)
            /\ (sum_list (map (fun rule => String.length (value rule))
                             (rules update)) <= 2238)%nat)
         (handles_to_rules handles ruleset_name).
Proof.
  intros Hh. rewrite handles_to_rules_groups. apply Forall_forall.
  intros update (j & -> & _)%list_elem_of_fmap.
  rewrite rule_group_chunk.
  set (subset := chunk NUM_HANDLES_PER_RULE handles j).
  assert (Forall (fun s => (String.length s <= 15)%nat) subset) as Hs.
  { apply Forall_forall. intros s Hin%chunk_subseteq.
    rewrite Forall_forall in Hh. auto. }
  assert (length subset <= 30)%nat as Hlen.
  { unfold subset. rewrite chunk_length. unfold NUM_HANDLES_PER_RULE. lia. }
  pose proof (length_clause "from:" subset 15 Hs) as H1.
  pose proof (length_clause "@" subset 15 Hs) as H2.
  pose proof (length_clause "retweets_of:" subset 15 Hs) as H3.
  unfold clause in H1, H2, H3.
  change (String.length "from:") with 5%nat in H1.
  change (String.length "@") with 1%nat in H2.
  change (String.length "retweets_of:") with 12%nat in H3.
  cbn [rules value map sum_list foldr].
  split.
  - repeat (apply Forall_cons; split; [cbn [value]; lia|]). by apply Forall_nil.
  - unfold sum_list, sum_list_with, id. cbn [map value]. lia.
Qed.

Lemma rule_values_bounded_witness :
  Forall (fun update =>
            Forall (fun rule => (String.length (value rule) <= 926)%nat)
                   (rules update)
            /\ (sum_list (map (fun rule => String.length (value rule))
                             (rules update)) <= 2238)%nat)
         (handles_to_rules ["ten"; "eleven"]%string "boston").
Proof.
  apply (rule_values_bounded ["ten"; "eleven"]%string "boston").
  repeat (apply Forall_cons; split; [simpl; lia|]). by apply Forall_nil.
Defined.

(** The bound on the three values is met by 30 handles of 15 characters. *)
Remark rule_values_bound_met :
  map (fun update => map (fun rule => String.length (value rule)) (rules update))
      (handles_to_rules (replicate 30 "fifteen_letters"%string) "boston")
  = [[716; 596; 926]%nat].
Proof. vm_compute. reflexivity. Qed.

(** X9: no two rules of the payloads that [handles_to_rules] returns have
    the same tag. *)
Theorem rule_tags_distinct (handles : list string) (ruleset_name : string) :
  NoDup (map tag (concat (map rules (handles_to_rules handles ruleset_name)))).
Proof.
  rewrite handles_to_rules_groups, map_map.
  apply tags_NoDup, NoDup_seq.
Qed.

Import Script.

Section CharFacts.
#[local] Arguments append !_ _ / : simpl nomatch.
Implicit Types (s t cur : string) (P : ascii -> bool) (sep c : ascii).

Lemma all_chars_app P s t :
  all_chars P (s +:+ t) = all_chars P s && all_chars P t.
Proof.
  induction s as [|c s IH]; simpl; [done|]. by rewrite IH, andb_assoc.
Qed.

Lemma all_chars_impl P (Q : ascii -> bool) s :
  (forall c, P c = true -> Q c = true) ->
  all_chars P s = true -> all_chars Q s = true.
Proof.
  intros HPQ. induction s as [|c s IH]; simpl; [done|].
  intros [Hc Hs]%andb_prop. by rewrite (HPQ c Hc), IH.
Qed.

(** The pieces of a split are made of characters of the text. *)
Lemma split_char_all P sep cur s :
  all_chars P cur = true -> all_chars P s = true ->
  Forall (fun piece => all_chars P piece = true) (split_char sep cur s).
Proof.
  revert cur. induction s as [|c s IH]; intros cur Hcur Hs; simpl in *.
  - by constructor.
  - apply andb_prop in Hs as [Hc Hs]. destruct (Ascii.eqb c sep).
    + constructor; [done|]. by apply IH.
    + apply IH; [|done]. rewrite all_chars_app, Hcur. simpl. by rewrite Hc.
Qed.

(** A text without the separator is one piece. *)
Lemma split_char_none sep cur s :
  all_chars (is_not sep) s = true ->
  split_char sep cur s = [cur +:+ s].
Proof.
  revert cur. induction s as [|c s IH]; intros cur Hs; simpl in *.
  - by rewrite append_empty_r.
  - apply andb_prop in Hs as [Hc Hs]. unfold is_not in Hc.
    apply negb_true_iff in Hc. rewrite Hc, IH by done. by rewrite append_snoc.
Qed.

Lemma remove_char_all c s :
  all_chars (is_not c) (remove_char c s) = true.
Proof.
  induction s as [|d s IH]; simpl; [done|].
  destruct (Ascii.eqb d c) eqn:Hd; [done|]. simpl. unfold is_not at 1.
  by rewrite Hd.
Qed.
End CharFacts.

Section ScriptFacts.
#[local] Arguments append !_ _ / : simpl nomatch.
Implicit Types (s stem rest seedfile : string).

Lemma prefix_cons_ne (a c : ascii) (s1 s2 : string) :
  a <> c -> String.prefix (String a s1) (String c s2) = false.
Proof.
  intros Hne.
  change (String.prefix (String a s1) (String c s2))
    with (if ascii_dec a c then String.prefix s1 s2 else false).
  by destruct (ascii_dec a c).
Qed.

Lemma replace_from_cons (old new : string) (c : ascii) s :
  replace_from old new 0 (String c s)
  = if String.prefix old (String c s)
    then new +:+ replace_from old new (String.length old - 1) s
    else String c (replace_from old new 0 s).
Proof. reflexivity. Qed.

(** [replace] passes a stretch without a dot. *)
Lemma replace_txt_pass stem rest :
  all_chars (is_not dot) stem = true ->
  replace ".txt" EmptyString (stem +:+ rest)
  = stem +:+ replace ".txt" EmptyString rest.
Proof.
  unfold replace. induction stem as [|c stem IH]; [done|].
  intros [Hc Hs]%andb_prop. unfold is_not in Hc. apply negb_true_iff in Hc.
  change (String c stem +:+ rest) with (String c (stem +:+ rest)).
  rewrite replace_from_cons, prefix_cons_ne, IH; [done..|].
  intros <-. by vm_compute in Hc.
Qed.

(** [replace] drops [".txt"] wherever it meets it. *)
Lemma replace_txt_hit rest :
  replace ".txt" EmptyString (".txt" +:+ rest)
  = replace ".txt" EmptyString rest.
Proof. unfold replace. simpl. by destruct rest. Qed.

Lemma replace_txt_none s :
  all_chars (is_not dot) s = true -> replace ".txt" EmptyString s = s.
Proof.
  intros Hs. rewrite <- (append_empty_r s) at 1.
  rewrite replace_txt_pass by done. unfold replace. simpl.
  by rewrite append_empty_r.
Qed.

Lemma prefix_slash_append s t :
  String.prefix "/" t = false ->
  String.prefix "/" (s +:+ t) = String.prefix "/" s.
Proof.
  intros Ht. destruct s as [|c s]; simpl; [by destruct t|].
  destruct (ascii_dec "/" c); by destruct s, t.
Qed.

Lemma last_item_split sep s :
  exists piece, last_item (split_char sep EmptyString s) = Ok piece
                /\ piece ∈ split_char sep EmptyString s.
Proof.
  unfold last_item.
  destruct (last (split_char sep EmptyString s)) as [piece|] eqn:Hl.
  - exists piece. split; [done|]. by apply last_Some_elem_of.
  - apply last_None in Hl. by apply split_char_nonempty in Hl.
Qed.

Lemma head_item_split sep s :
  exists piece, head_item (split_char sep EmptyString s) = Ok piece
                /\ piece ∈ split_char sep EmptyString s.
Proof.
  destruct (split_char sep EmptyString s) as [|piece l] eqn:Hs.
  - by apply split_char_nonempty in Hs.
  - exists piece. split; [done|left].
Qed.
End ScriptFacts.

(** X10: for every seed file name the script finds a ruleset name, without
    an [IndexError], and the name holds neither a [/] nor a [.]. *)
Theorem ruleset_name_clean (seedfile : string) :
  exists name,
    ruleset_name seedfile = Ok name
    /\ all_chars (is_not slash) name = true
    /\ all_chars (is_not dot) name = true.
Proof.
  unfold ruleset_name.
  destruct (last_item_split slash (base_name seedfile)) as (component & -> & Hc).
  simpl.
  destruct (head_item_split dot component) as (name & -> & Hn).
  exists name. split; [done|].
  pose proof (split_char_pieces slash EmptyString (base_name seedfile) eq_refl)
    as Hpieces.
  rewrite Forall_forall in Hpieces. apply Hpieces in Hc.
  pose proof (split_char_all (is_not slash) dot EmptyString component eq_refl Hc)
    as Hslash.
  pose proof (split_char_pieces dot EmptyString component eq_refl) as Hdot.
  rewrite Forall_forall in Hslash, Hdot. split; auto.
Qed.

(** X11: [".txt"] is taken out of the seed file name wherever it stands
    after a stretch without a dot, not only at the end.  For a name
    [stem.txt] with no other dot, the base name is [stem], the two output
    files are [stem.expanded_set.json] and [stem.powertrack_rules.json],
    under [./] unless [stem] is absolute, and the ruleset name is the last
    path component of [stem]. *)
Theorem output_names (stem : string) :
  all_chars (is_not dot) stem = true ->
  (forall rest, base_name (stem +:+ ".txt" +:+ rest) = stem +:+ base_name rest)
  /\ base_name (stem +:+ ".txt") = stem
  /\ expanded_set_fname (stem +:+ ".txt")
     = (if String.prefix "/" stem then EmptyString else "./")
         +:+ stem +:+ ".expanded_set.json"
  /\ powertrack_rules_fname (stem +:+ ".txt")
     = (if String.prefix "/" stem then EmptyString else "./")
         +:+ stem +:+ ".powertrack_rules.json"
  /\ ruleset_name (stem +:+ ".txt")
     = last_item (split_char slash EmptyString stem).
Proof.
  intros Hstem.
  assert (Hrest : forall rest,
            base_name (stem +:+ ".txt" +:+ rest) = stem +:+ base_name rest).
  { intros rest. unfold base_name.
    by rewrite replace_txt_pass, replace_txt_hit. }
  assert (Hbase : base_name (stem +:+ ".txt") = stem).
  { specialize (Hrest EmptyString). rewrite append_empty_r in Hrest.
    rewrite Hrest. apply append_empty_r. }
  split; [done|]. split; [done|].
  unfold expanded_set_fname, powertrack_rules_fname, ruleset_name, path_join.
  rewrite Hbase, !prefix_slash_append by done.
  split; [|split].
  - by destruct (String.prefix "/" stem).
  - by destruct (String.prefix "/" stem).
  - destruct (last_item_split slash stem) as (component & -> & Hc). simpl.
    rewrite split_char_none; [done|].
    pose proof (split_char_all (is_not dot) slash EmptyString stem eq_refl Hstem)
      as Hall.
    rewrite Forall_forall in Hall. by apply Hall.
Qed.

Lemma output_names_witness :
  base_name "seed_sets/boston_seed_set.txt" = "seed_sets/boston_seed_set"%string
  /\ expanded_set_fname "seed_sets/boston_seed_set.txt"
     = "./seed_sets/boston_seed_set.expanded_set.json"%string
  /\ powertrack_rules_fname "seed_sets/boston_seed_set.txt"
     = "./seed_sets/boston_seed_set.powertrack_rules.json"%string
  /\ ruleset_name "seed_sets/boston_seed_set.txt" = Ok "boston_seed_set"%string.
Proof.
  destruct (output_names "seed_sets/boston_seed_set") as (_ & H1 & H2 & H3 & H4).
  - reflexivity.
  - split; [exact H1|]. split; [exact H2|]. split; [exact H3|].
    etransitivity; [exact H4|]. vm_compute. reflexivity.
Defined.

(** [".txt"] inside the name goes too. *)
Remark base_name_inner_txt :
  base_name "notes.txt.d/seeds.txt" = "notes.d/seeds"%string.
Proof. reflexivity. Qed.

Section SeedHandleFacts.
Implicit Types (contents line h : string).

Lemma mapM_ok_elem {A B : Type} (f : A -> result B) (l : list A) ys y :
  mapM f l = Ok ys -> y ∈ ys -> exists x, x ∈ l /\ f x = Ok y.
Proof.
  revert ys. induction l as [|x l IH]; intros ys; simpl.
  - intros [= <-] Hy. by apply elem_of_nil in Hy.
  - intros (y' & Hy' & Hb)%bind_ok. apply bind_ok in Hb as (ys' & Hys & [= <-]).
    intros [->|Hin]%elem_of_cons.
    + exists x. split; [left|done].
    + destruct (IH _ Hys Hin) as (x' & Hx' & Hfx). exists x'. split; [by right|done].
Qed.

Lemma read_seed_set_elem contents seed_set h :
  read_seed_set contents = Ok seed_set -> h ∈ seed_set ->
  exists line, line ∈ split_char newline EmptyString contents
               /\ line <> EmptyString
               /\ FirstToken h (remove_char at_sign line).
Proof.
  unfold read_seed_set. intros (tokens & Ht & [= <-])%bind_ok.
  rewrite elem_of_elements, elem_of_list_to_set. intros Hh.
  destruct (mapM_ok_elem _ _ _ _ Ht Hh) as (line & Hin & Hl).
  apply elem_of_seed_lines in Hin as [Hin Hne].
  exists line. by rewrite <- first_token_ok.
Qed.

Lemma read_seed_set_exn contents e :
  read_seed_set contents = Raise e -> e = IndexError.
Proof.
  unfold read_seed_set.
  destruct (mapM first_token _) as [tokens|e'] eqn:Hm; [done|].
  intros [= <-]. clear -Hm. revert Hm.
  generalize (List.filter nonempty (split_char newline EmptyString contents)).
  intros l. induction l as [|x l IH]; simpl; [done|].
  destruct (first_token x) as [t|e] eqn:Hx; simpl.
  - destruct (mapM first_token l); simpl; [done|]. intros [= <-]. by apply IH.
  - intros [= <-]. by eapply first_token_exn.
Qed.
End SeedHandleFacts.

(** X12: every handle that [read_seed_set] returns is a non-empty string
    without whitespace and without [@], and no handle is returned twice. *)
Theorem seed_handles_clean contents seed_set :
  read_seed_set contents = Ok seed_set ->
  NoDup seed_set
  /\ Forall (fun h => h <> EmptyString
                      /\ all_chars nonspace h = true
                      /\ all_chars (is_not at_sign) h = true) seed_set.
Proof.
  intros Hread. split.
  - unfold read_seed_set in Hread.
    apply bind_ok in Hread as (tokens & _ & [= <-]). apply NoDup_elements.
  - apply Forall_forall. intros h Hh.
    destruct (read_seed_set_elem _ _ _ Hread Hh)
      as (line & _ & _ & ws & rest & Heq & _ & Hne & Hns & _).
    split; [done|]. split; [done|].
    pose proof (remove_char_all at_sign line) as Hall.
    rewrite Heq, !all_chars_app in Hall.
    by apply andb_prop in Hall as [_ [Hall _]%andb_prop].
Qed.

Lemma seed_handles_clean_witness :
  exists seed_set,
    read_seed_set Examples.seed_text = Ok seed_set
    /\ NoDup seed_set
    /\ Forall (fun h => h <> EmptyString
                        /\ all_chars nonspace h = true
                        /\ all_chars (is_not at_sign) h = true) seed_set.
Proof.
  eexists. split; [vm_compute; reflexivity|].
  apply (seed_handles_clean Examples.seed_text). vm_compute. reflexivity.
Defined.

(** X13: [read_seed_set] raises nothing but [IndexError], and raises it
    exactly when some non-empty line of the file holds only whitespace and
    [@]; an empty file gives the empty seed set. *)
Theorem read_seed_set_outcome contents :
  (forall e, read_seed_set contents = Raise e -> e = IndexError)
  /\ (read_seed_set contents = Raise IndexError <->
      exists line, line ∈ split_char newline EmptyString contents
                   /\ line <> EmptyString
                   /\ all_chars space_or_at line = true)
  /\ read_seed_set EmptyString = Ok [].
Proof.
  split; [apply read_seed_set_exn|]. split; [|reflexivity].
  symmetry. apply read_seed_set_raise.
Qed.

Section OutputFacts.
Local Open Scope nat_scope.



End OutputFacts.


